(** * Connect-Four engine: a shallow embedding of [connect4.py] and
      [connectk4.py] and the properties of the game engine.

    The Python class [Connect4] is embedded as a record of its instance
    attributes; every method becomes a function that takes the object state
    and returns, in an error monad, the method's return value together with
    the state after the call.  List subscripting follows Python: a negative
    index counts from the end, an index outside [-len, len) raises
    [IndexError].  The two [while] loops are run with fuel; running out of
    fuel is a separate outcome, and the theorems show it never happens.

    The console of [connect4.py] reads a list of input lines and writes a
    list of texts; the window of [connectk4.py] is embedded as the attributes
    of [App] with the items on its canvas and the text of its status label,
    and receives clicks, pointer motions and New Game presses. *)

From stdpp Require Import base list strings.
From Stdlib Require Import ZArith Lia DecimalString.

#[local] Open Scope Z_scope.

(** ** Results of running Python code *)

Inductive result (A : Type) : Type :=
| Ok (a : A)
| IndexError
| OutOfFuel.

Arguments Ok {A} a.
Arguments IndexError {A}.
Arguments OutOfFuel {A}.

Definition bind {A B : Type} (m : result A) (k : A → result B) : result B :=
  match m with
  | Ok a => k a
  | IndexError => IndexError
  | OutOfFuel => OutOfFuel
  end.

Notation "'let*' x := m 'in' k" := (bind m (fun x => k))
  (at level 10, x pattern, m at level 100, k at level 200).

(** ** Python lists *)

(** [range(n)] *)
Definition range (n : Z) : list Z := map Z.of_nat (seq 0 (Z.to_nat n)).

(** The position a subscript [i] denotes in a list of length [n], if any. *)
Definition norm_index (n : nat) (i : Z) : option nat :=
  let j := if i <? 0 then i + Z.of_nat n else i in
  if (0 <=? j) && (j <? Z.of_nat n) then Some (Z.to_nat j) else None.

(** [l[i]] *)
Definition getitem {A : Type} (l : list A) (i : Z) : result A :=
  match norm_index (length l) i with
  | Some j => match l !! j with Some x => Ok x | None => IndexError end
  | None => IndexError
  end.

(** [l[i] = x] *)
Definition setitem {A : Type} (l : list A) (i : Z) (x : A) : result (list A) :=
  match norm_index (length l) i with
  | Some j => Ok (<[j := x]> l)
  | None => IndexError
  end.

(** [for x in xs: body], threading the mutated state. *)
Fixpoint for_each {S : Type} (xs : list Z) (body : Z → S → result S) (s : S)
  : result S :=
  match xs with
  | [] => Ok s
  | x :: xs' => let* s' := body x s in for_each xs' body s'
  end.

(** The board is a list of row lists.  The rows are built by one list
    comprehension each, so no two rows are the same object and an
    assignment [board[r][c] = v] changes row [r] only. *)
Abbreviation grid := (list (list Z)).

(** [board[r][c]] *)
Definition board_get (b : grid) (r c : Z) : result Z :=
  let* row := getitem b r in getitem row c.

(** [board[r][c] = v] *)
Definition board_set (b : grid) (r c v : Z) : result grid :=
  let* row := getitem b r in
  let* row' := setitem row c v in
  setitem b r row'.

(** ** The object state *)

Definition span : Type := (Z * Z) * (Z * Z).

Record Connect4 : Type := MkConnect4 {
  rows : Z;
  cols : Z;
  board : grid;
  current : Z;
  winner : option Z;
  move_count : Z;
  win_line : option span
}.

(** The calls a front end makes, and what they return. *)
Inductive call : Type :=
| CallDrop (col : Z)
| CallReset
| CallIsDraw.

Inductive retval : Type :=
| RetDrop (row : option Z)
| RetReset
| RetIsDraw (b : bool).

(** ** [connect4.py] *)

Module connect4.

Definition ROWS : Z := 6.
Definition COLS : Z := 7.

(** [Connect4.__init__] *)
Definition __init__ : Connect4 :=
  {| rows := ROWS;
     cols := COLS;
     board := map (fun _ => map (fun _ => -1) (range COLS)) (range ROWS);
     current := 0;
     winner := None;
     move_count := 0;
     win_line := None |}.

(** [Connect4.reset] *)
Definition reset (self : Connect4) : result Connect4 :=
  let* b :=
    for_each (range (rows self))
      (fun r b => for_each (range (cols self))
                    (fun c b => board_set b r c (-1)) b)
      (board self) in
  Ok {| rows := rows self;
        cols := cols self;
        board := b;
        current := 0;
        winner := None;
        move_count := 0;
        win_line := None |}.

(** The loop of [count_and_last]:
    [while 0 <= rr < rows and 0 <= cc < cols and board[rr][cc] == player]. *)
Fixpoint count_loop (fuel : nat) (self : Connect4) (player dr dc : Z)
    (rr cc n last_r last_c : Z) : result (Z * Z * Z) :=
  match fuel with
  | O => OutOfFuel
  | S fuel' =>
      let* cond :=
        if (0 <=? rr) && (rr <? rows self) && (0 <=? cc) && (cc <? cols self)
        then let* v := board_get (board self) rr cc in Ok (v =? player)
        else Ok false in
      if cond
      then count_loop fuel' self player dr dc
             (rr + dr) (cc + dc) (n + 1) rr cc
      else Ok (n, last_r, last_c)
  end.

Definition count_fuel (self : Connect4) : nat :=
  S (Z.to_nat (rows self + cols self)).

(** The local function [count_and_last] of [_winning_span]; [r], [c] and
    [player] are the variables it closes over. *)
Definition count_and_last (self : Connect4) (player r c dr dc : Z)
  : result (Z * Z * Z) :=
  count_loop (count_fuel self) self player dr dc (r + dr) (c + dc) 0 r c.

(** [for dr, dc in ((0, 1), (1, 0), (1, 1), (1, -1))] *)
Fixpoint span_loop (self : Connect4) (player r c : Z) (dirs : list (Z * Z))
  : result (option span) :=
  match dirs with
  | [] => Ok None
  | (dr, dc) :: dirs' =>
      let* (f_count, f_r, f_c) := count_and_last self player r c dr dc in
      let* (b_count, b_r, b_c) := count_and_last self player r c (- dr) (- dc) in
      if 4 <=? 1 + f_count + b_count
      then Ok (Some ((b_r, b_c), (f_r, f_c)))
      else span_loop self player r c dirs'
  end.

Definition directions : list (Z * Z) := [(0, 1); (1, 0); (1, 1); (1, -1)].

(** [Connect4._winning_span] *)
Definition _winning_span (self : Connect4) (r c : Z) : result (option span) :=
  let* player := board_get (board self) r c in
  if player =? -1 then Ok None
  else span_loop self player r c directions.

(** The loop of [drop]: [while row >= 0 and board[row][col] != -1: row -= 1]. *)
Fixpoint drop_loop (fuel : nat) (b : grid) (col row : Z) : result Z :=
  match fuel with
  | O => OutOfFuel
  | S fuel' =>
      let* cond :=
        if 0 <=? row
        then let* v := board_get b row col in Ok (negb (v =? -1))
        else Ok false in
      if cond then drop_loop fuel' b col (row - 1) else Ok row
  end.

Definition drop_fuel (self : Connect4) : nat := S (Z.to_nat (rows self)).

(** [Connect4.drop]; the move is rejected with [None]. *)
Definition drop (self : Connect4) (col : Z) : result (option Z * Connect4) :=
  if bool_decide (winner self ≠ None) then Ok (None, self)
  else
    let* invalid :=
      if negb ((0 <=? col) && (col <? cols self)) then Ok true
      else let* top := board_get (board self) 0 col in Ok (negb (top =? -1)) in
    if invalid then Ok (None, self)
    else
      let* row := drop_loop (drop_fuel self) (board self) col (rows self - 1) in
      let* b := board_set (board self) row col (current self) in
      let self1 :=
        {| rows := rows self; cols := cols self; board := b;
           current := current self; winner := winner self;
           move_count := move_count self + 1;
           win_line := win_line self |} in
      let* win_span := _winning_span self1 row col in
      match win_span with
      | Some line =>
          Ok (Some row,
              {| rows := rows self1; cols := cols self1; board := board self1;
                 current := current self1; winner := Some (current self1);
                 move_count := move_count self1;
                 win_line := Some line |})
      | None =>
          Ok (Some row,
              {| rows := rows self1; cols := cols self1; board := board self1;
                 current := 1 - current self1; winner := winner self1;
                 move_count := move_count self1;
                 win_line := win_line self1 |})
      end.

(** [Connect4.is_draw] *)
Definition is_draw (self : Connect4) : bool :=
  bool_decide (winner self = None)
  && (move_count self =? rows self * cols self).

(** One call on the object. *)
Definition step (self : Connect4) (k : call) : result (retval * Connect4) :=
  match k with
  | CallDrop col => let* (r, self') := drop self col in Ok (RetDrop r, self')
  | CallReset => let* self' := reset self in Ok (RetReset, self')
  | CallIsDraw => Ok (RetIsDraw (is_draw self), self)
  end.

(** A sequence of calls on a freshly constructed object: the values
    returned, in order, and the final state. *)
Fixpoint run_from (self : Connect4) (ks : list call)
  : result (list retval * Connect4) :=
  match ks with
  | [] => Ok ([], self)
  | k :: ks' =>
      let* (v, self') := step self k in
      let* (vs, self'') := run_from self' ks' in
      Ok (v :: vs, self'')
  end.

Definition run (ks : list call) : result (list retval * Connect4) :=
  run_from __init__ ks.

End connect4.

(** ** [connectk4.py] *)

Module connectk4.

Definition ROWS : Z := 6.
Definition COLS : Z := 7.

(** [Connect4.__init__] *)
Definition __init__ : Connect4 :=
  {| rows := ROWS;
     cols := COLS;
     board := map (fun _ => map (fun _ => -1) (range COLS)) (range ROWS);
     current := 0;
     winner := None;
     move_count := 0;
     win_line := None |}.

(** [Connect4.reset] *)
Definition reset (self : Connect4) : result Connect4 :=
  let* b :=
    for_each (range (rows self))
      (fun r b => for_each (range (cols self))
                    (fun c b => board_set b r c (-1)) b)
      (board self) in
  Ok {| rows := rows self;
        cols := cols self;
        board := b;
        current := 0;
        winner := None;
        move_count := 0;
        win_line := None |}.

(** The loop of [count_and_last]:
    [while 0 <= rr < rows and 0 <= cc < cols and board[rr][cc] == player]. *)
Fixpoint count_loop (fuel : nat) (self : Connect4) (player dr dc : Z)
    (rr cc n last_r last_c : Z) : result (Z * Z * Z) :=
  match fuel with
  | O => OutOfFuel
  | S fuel' =>
      let* cond :=
        if (0 <=? rr) && (rr <? rows self) && (0 <=? cc) && (cc <? cols self)
        then let* v := board_get (board self) rr cc in Ok (v =? player)
        else Ok false in
      if cond
      then count_loop fuel' self player dr dc
             (rr + dr) (cc + dc) (n + 1) rr cc
      else Ok (n, last_r, last_c)
  end.

Definition count_fuel (self : Connect4) : nat :=
  S (Z.to_nat (rows self + cols self)).

(** The local function [count_and_last] of [_winning_span]; [r], [c] and
    [player] are the variables it closes over. *)
Definition count_and_last (self : Connect4) (player r c dr dc : Z)
  : result (Z * Z * Z) :=
  let '(rr, cc, n) := (r + dr, c + dc, 0) in
  let '(last_r, last_c) := (r, c) in
  count_loop (count_fuel self) self player dr dc rr cc n last_r last_c.

(** [for dr, dc in ((0, 1), (1, 0), (1, 1), (1, -1))] *)
Fixpoint span_loop (self : Connect4) (player r c : Z) (dirs : list (Z * Z))
  : result (option span) :=
  match dirs with
  | [] => Ok None
  | (dr, dc) :: dirs' =>
      let* (f_count, f_r, f_c) := count_and_last self player r c dr dc in
      let* (b_count, b_r, b_c) := count_and_last self player r c (- dr) (- dc) in
      let total := 1 + f_count + b_count in
      if 4 <=? total
      then
        let start := (b_r, b_c) in
        let end_ := (f_r, f_c) in
        Ok (Some (start, end_))
      else span_loop self player r c dirs'
  end.

Definition directions : list (Z * Z) := [(0, 1); (1, 0); (1, 1); (1, -1)].

(** [Connect4._winning_span] *)
Definition _winning_span (self : Connect4) (r c : Z) : result (option span) :=
  let* player := board_get (board self) r c in
  if player =? -1 then Ok None
  else span_loop self player r c directions.

(** The loop of [drop]: [while row >= 0 and board[row][col] != -1: row -= 1]. *)
Fixpoint drop_loop (fuel : nat) (b : grid) (col row : Z) : result Z :=
  match fuel with
  | O => OutOfFuel
  | S fuel' =>
      let* cond :=
        if 0 <=? row
        then let* v := board_get b row col in Ok (negb (v =? -1))
        else Ok false in
      if cond then drop_loop fuel' b col (row - 1) else Ok row
  end.

Definition drop_fuel (self : Connect4) : nat := S (Z.to_nat (rows self)).

(** [Connect4.drop]; the move is rejected with [None]. *)
Definition drop (self : Connect4) (col : Z) : result (option Z * Connect4) :=
  if bool_decide (winner self ≠ None) then Ok (None, self)
  else
    let* invalid :=
      if negb ((0 <=? col) && (col <? cols self)) then Ok true
      else let* top := board_get (board self) 0 col in Ok (negb (top =? -1)) in
    if invalid then Ok (None, self)
    else
      let* row := drop_loop (drop_fuel self) (board self) col (rows self - 1) in
      let* b := board_set (board self) row col (current self) in
      let self1 :=
        {| rows := rows self; cols := cols self; board := b;
           current := current self; winner := winner self;
           move_count := move_count self + 1;
           win_line := win_line self |} in
      let* win_span := _winning_span self1 row col in
      match win_span with
      | Some line =>
          Ok (Some row,
              {| rows := rows self1; cols := cols self1; board := board self1;
                 current := current self1; winner := Some (current self1);
                 move_count := move_count self1;
                 win_line := Some line |})
      | None =>
          Ok (Some row,
              {| rows := rows self1; cols := cols self1; board := board self1;
                 current := 1 - current self1; winner := winner self1;
                 move_count := move_count self1;
                 win_line := win_line self1 |})
      end.

(** [Connect4.is_draw] *)
Definition is_draw (self : Connect4) : bool :=
  bool_decide (winner self = None)
  && (move_count self =? rows self * cols self).

(** One call on the object. *)
Definition step (self : Connect4) (k : call) : result (retval * Connect4) :=
  match k with
  | CallDrop col => let* (r, self') := drop self col in Ok (RetDrop r, self')
  | CallReset => let* self' := reset self in Ok (RetReset, self')
  | CallIsDraw => Ok (RetIsDraw (is_draw self), self)
  end.

(** A sequence of calls on a freshly constructed object: the values
    returned, in order, and the final state. *)
Fixpoint run_from (self : Connect4) (ks : list call)
  : result (list retval * Connect4) :=
  match ks with
  | [] => Ok ([], self)
  | k :: ks' =>
      let* (v, self') := step self k in
      let* (vs, self'') := run_from self' ks' in
      Ok (v :: vs, self'')
  end.

Definition run (ks : list call) : result (list retval * Connect4) :=
  run_from __init__ ks.

End connectk4.

(** ** Python strings *)

(** A [str] is modelled by the string of its UTF-8 bytes. *)

(** [str(i)] and [f"{i}"] for an integer [i]. *)
Definition str_of_int (i : Z) : string :=
  NilZero.string_of_int (Z.to_int i).

(** The newline character. *)
Definition nl : string := String (Ascii.ascii_of_nat 10) "".

(** [sep.join(xs)] *)
Fixpoint join (sep : string) (xs : list string) : string :=
  match xs with
  | [] => ""
  | [x] => x
  | x :: xs' => x +:+ sep +:+ join sep xs'
  end.

(** [range(a, b)] *)
Definition range_from (a b : Z) : list Z :=
  map (λ i, a + Z.of_nat i) (seq 0 (Z.to_nat (b - a))).

(** [[f(x) for x in xs]], and a generator consumed to its end. *)
Fixpoint map_each {A : Type} (xs : list Z) (f : Z → result A)
  : result (list A) :=
  match xs with
  | [] => Ok []
  | x :: xs' =>
      let* y := f x in
      let* ys := map_each xs' f in
      Ok (y :: ys)
  end.

(** ** [connect4.py], the console *)

Module console.

Definition ROWS : Z := 6.
Definition COLS : Z := 7.
Definition EMPTY : string := "Â·".
Definition PLAYER_NAMES : list string := ["Red"; "Yellow"].
Definition PLAYER_SYMBOLS : list string := ["R"; "Y"].

(** The local function [cell_char] of [render_board]. *)
Definition cell_char (game : Connect4) (r c : Z) : result string :=
  let* owner := board_get (board game) r c in
  if negb (owner =? -1) then getitem PLAYER_SYMBOLS owner else Ok EMPTY.

(** [render_board] *)
Definition render_board (game : Connect4) : result string :=
  let* numbers := map_each (range_from 1 (COLS + 1)) (λ i, Ok (str_of_int i)) in
  let header := " " +:+ join " " numbers in
  let lines := [header] in
  let* lines :=
    for_each (range ROWS)
      (λ r lines,
         let* cells := map_each (range COLS) (λ c, cell_char game r c) in
         let row := join " " cells in
         Ok (lines ++ [" " +:+ row]))
      lines in
  Ok (join nl lines).

(** What the console reads and writes.  [stdin] is the list of the lines
    still to be read, [out] the list of the texts written so far, one per
    [print] or [input] call.  [input] at the end of the input raises
    [EOFError].  The builtins [str.strip], [str.lower] and [int] are
    parameters: [int] answers [None] where Python raises [ValueError]. *)
Section io.

Variables (strip lower : string → string) (int : string → option Z).

(** What [prompt_column] comes back with: [col1 - 1], [None], or
    [EOFError] out of [input]. *)
Inductive prompted : Type :=
| Column (col : Z)
| Quit
| EndOfInput.

(** [prompt_column]; [game] is the global it reads. *)
Fixpoint prompt_column (game : Connect4) (stdin out : list string)
  : result (prompted * list string * list string) :=
  let* name := getitem PLAYER_NAMES (current game) in
  let* sym := getitem PLAYER_SYMBOLS (current game) in
  let out :=
    out ++ [name +:+ " (" +:+ sym +:+ ") â€” choose column [1-"
            +:+ str_of_int COLS +:+ "] (or 'q' to quit): "] in
  match stdin with
  | [] => Ok (EndOfInput, [], out)
  | line :: stdin' =>
      let raw := strip line in
      if bool_decide (lower raw ∈ ["q"; "quit"; "exit"])
      then Ok (Quit, stdin', out)
      else
        match int raw with
        | None =>
            prompt_column game stdin'
              (out ++ ["Please enter a number from 1 to " +:+ str_of_int COLS
                       +:+ ", or 'q' to quit." +:+ nl +:+ nl])
        | Some col1 =>
            if negb ((1 <=? col1) && (col1 <=? COLS))
            then
              prompt_column game stdin'
                (out ++ ["Column must be between 1 and " +:+ str_of_int COLS
                         +:+ "." +:+ nl +:+ nl])
            else Ok (Column (col1 - 1), stdin', out)
        end
  end.




End io.

End console.

(** ** [connectk4.py], the window *)

Module App.

Definition ROWS : Z := 6.
Definition COLS : Z := 7.
Definition CELL : Z := 80.
Definition PADDING : Z := 12.
Definition EMPTY_COLOR : string := "#f1faee".
Definition PLAYER_NAMES : list string := ["Red"; "Yellow"].
Definition PLAYER_COLORS : list string := ["#e63946"; "#ffd166"].
Definition WIN_LINE_COLOR : string := "#06d6a0".
Definition WIN_LINE_WIDTH : Z := 8.

(** What the canvas holds: the items created since the last
    [delete("all")], oldest first, each with the arguments of its
    [create_...] call. *)
Inductive item : Type :=
| Rectangle (x0 y0 x1 y1 : Z) (fill outline : string)
| Oval (x0 y0 x1 y1 : Z) (fill outline : string)
| Line (x0 y0 x1 y1 : Z) (fill : string) (width : Z).

(** The attributes of an [App] that its methods read or write, with the
    text of the status label and the content of the canvas. *)
Record state : Type := MkApp {
  game : Connect4;
  hover_col : option Z;
  status : string;
  canvas : list item
}.

(** [App.redraw] *)
Definition redraw (self : state) : result state :=
  let canvas0 : list item := [] in
  let canvas1 :=
    match hover_col self with
    | Some hover =>
        if bool_decide (winner (game self) = None)
           && negb (connectk4.is_draw (game self))
        then
          let x0 := hover * CELL in
          canvas0 ++ [Rectangle x0 0 (x0 + CELL) (ROWS * CELL) "#2E386D" ""]
        else canvas0
    | None => canvas0
    end in
  let* canvas2 :=
    for_each (range ROWS)
      (λ r cv,
         for_each (range COLS)
           (λ c cv,
              let x0 := c * CELL + PADDING in
              let y0 := r * CELL + PADDING in
              let x1 := (c + 1) * CELL - PADDING in
              let y1 := (r + 1) * CELL - PADDING in
              let* owner := board_get (board (game self)) r c in
              let* fill :=
                if negb (owner =? -1) then getitem PLAYER_COLORS owner
                else Ok EMPTY_COLOR in
              Ok (cv ++ [Oval x0 y0 x1 y1 fill "#111"]))
           cv)
      canvas1 in
  let canvas3 :=
    match win_line (game self) with
    | Some ((r0, c0), (r1, c1)) =>
        let x0 := c0 * CELL + CELL `div` 2 in
        let y0 := r0 * CELL + CELL `div` 2 in
        let x1 := c1 * CELL + CELL `div` 2 in
        let y1 := r1 * CELL + CELL `div` 2 in
        canvas2 ++ [Line x0 y0 x1 y1 WIN_LINE_COLOR WIN_LINE_WIDTH]
    | None => canvas2
    end in
  Ok {| game := game self; hover_col := hover_col self;
        status := status self; canvas := canvas3 |}.

(** [App.update_status] *)
Definition update_status (self : state) : result state :=
  let* text :=
    match winner (game self) with
    | Some w =>
        let* name := getitem PLAYER_NAMES w in
        Ok (name +:+ " wins! Click 'New Game' to play again.")
    | None =>
        if connectk4.is_draw (game self)
        then Ok "It's a draw. Click 'New Game' to play again."
        else
          let* name := getitem PLAYER_NAMES (current (game self)) in
          Ok (name +:+ "'s move: click a column.")
    end in
  Ok {| game := game self; hover_col := hover_col self;
        status := text; canvas := canvas self |}.

(** [App.__init__], from the creation of the game on; the label starts
    with no text and the canvas with no item. *)
Definition __init__ : result state :=
  let self := {| game := connectk4.__init__; hover_col := None;
                 status := ""; canvas := [] |} in
  let* self := redraw self in
  update_status self.

(** [App.on_click]; [x] is [event.x]. *)
Definition on_click (self : state) (x : Z) : result state :=
  if bool_decide (winner (game self) ≠ None) || connectk4.is_draw (game self)
  then Ok self
  else
    let col := x `div` CELL in
    let* (row, game') := connectk4.drop (game self) col in
    let self := {| game := game'; hover_col := hover_col self;
                   status := status self; canvas := canvas self |} in
    if bool_decide (row ≠ None)
    then let* self := redraw self in update_status self
    else Ok self.

(** [App.on_motion]; [x] is [event.x]. *)
Definition on_motion (self : state) (x : Z) : result state :=
  let col := x `div` CELL in
  let new_hover := if (0 <=? col) && (col <? COLS) then Some col else None in
  if bool_decide (new_hover ≠ hover_col self)
  then
    redraw {| game := game self; hover_col := new_hover;
              status := status self; canvas := canvas self |}
  else Ok self.

(** [App.new_game] *)
Definition new_game (self : state) : result state :=
  let* game' := connectk4.reset (game self) in
  let self := {| game := game'; hover_col := None;
                 status := status self; canvas := canvas self |} in
  let* self := redraw self in
  update_status self.

(** The events the window is bound to. *)
Inductive event : Type :=
| Click (x : Z)
| Motion (x : Z)
| NewGame.

Definition handle (self : state) (e : event) : result state :=
  match e with
  | Click x => on_click self x
  | Motion x => on_motion self x
  | NewGame => new_game self
  end.

(** The states of a window that was created and then received events. *)
Inductive reachable : state → Prop :=
| reach_init a : __init__ = Ok a → reachable a
| reach_event a e a' : reachable a → handle a e = Ok a' → reachable a'.

End App.

(** ** Vocabulary of the statements *)

(** The content of the cell at row [r], column [c]; [None] off the grid. *)
Definition cell (b : grid) (r c : Z) : option Z :=
  if (0 <=? r) && (0 <=? c)
  then b !! Z.to_nat r ≫= (λ row, row !! Z.to_nat c)
  else None.

Definition empty_at (b : grid) (r c : Z) : Prop := cell b r c = Some (-1).

Definition disc_at (b : grid) (r c : Z) : Prop :=
  ∃ v, cell b r c = Some v ∧ v ≠ -1.

(** The grid after [board[r][c] = v], for a cell on the grid. *)
Definition grid_update (b : grid) (r c v : Z) : grid :=
  alter (λ row, <[Z.to_nat c := v]> row) (Z.to_nat r) b.

(** A grid of [ROWS] rows of [COLS] cells. *)
Definition shaped (b : grid) : Prop :=
  length b = Z.to_nat connect4.ROWS
  ∧ Forall (λ row : list Z, length row = Z.to_nat connect4.COLS) b.

Definition on_grid (p : Z * Z) : Prop :=
  0 ≤ p.1 < connect4.ROWS ∧ 0 ≤ p.2 < connect4.COLS.

(** The number of discs on the board. *)
Definition discs_in_row (row : list Z) : nat :=
  length (filter (λ v, v ≠ -1) row).

Definition discs (b : grid) : Z := Z.of_nat (sum_list_with discs_in_row b).

(** The states of an object that was constructed and then only used
    through [drop], [reset] and [is_draw]. *)
Inductive reachable : Connect4 → Prop :=
| reach_init : reachable connect4.__init__
| reach_step s k v s' :
    reachable s → connect4.step s k = Ok (v, s') → reachable s'.

(** Exactly [n] cells after [(r, c)] in direction [(dr, dc)] hold [player]:
    the [n] next ones do, the one after them does not. *)
Definition run_length (b : grid) (player r c dr dc n : Z) : Prop :=
  0 ≤ n
  ∧ (∀ i, 1 ≤ i ≤ n → cell b (r + i * dr) (c + i * dc) = Some player)
  ∧ cell b (r + (n + 1) * dr) (c + (n + 1) * dc) ≠ Some player.

(** The line through [(r, c)] along [d]: [f] cells forward, [k] backward. *)
Definition line_through (b : grid) (player r c : Z) (d : Z * Z) (f k : Z)
  : Prop :=
  run_length b player r c d.1 d.2 f
  ∧ run_length b player r c (- d.1) (- d.2) k.

Definition four_along (b : grid) (player r c : Z) (d : Z * Z) : Prop :=
  ∃ f k, line_through b player r c d f k ∧ 4 ≤ 1 + f + k.

Definition short_along (b : grid) (player r c : Z) (d : Z * Z) : Prop :=
  ∃ f k, line_through b player r c d f k ∧ 1 + f + k < 4.

(** The invariants of the engine. *)
Definition count_inv (s : Connect4) : Prop :=
  move_count s = discs (board s).

Definition outcome_inv (s : Connect4) : Prop :=
  (winner s = None ↔ win_line s = None)
  ∧ (∀ w, winner s = Some w → w = 0 ∨ w = 1)
  ∧ (∀ p q, win_line s = Some (p, q) → on_grid p ∧ on_grid q).

Definition gravity (b : grid) : Prop :=
  ∀ r c, empty_at b r c → ∀ r', 0 ≤ r' ≤ r → empty_at b r' c.

Record inv (s : Connect4) : Prop := MkInv {
  inv_rows : rows s = connect4.ROWS;
  inv_cols : cols s = connect4.COLS;
  inv_shaped : shaped (board s);
  inv_current : current s = 0 ∨ current s = 1;
  inv_count : count_inv s;
  inv_outcome : outcome_inv s;
  inv_gravity : gravity (board s)
}.

(** A game of 42 moves that fills the board with no four in a row. *)
Definition draw_game : list Z :=
  replicate 6 0 ++ replicate 6 1 ++ replicate 6 4 ++ [5]
  ++ replicate 6 2 ++ replicate 6 3 ++ replicate 6 6 ++ replicate 5 5.

Definition drops (columns : list Z) : list call := map CallDrop columns.

(** The state [ks] leads to, [__init__] if some call raises. *)
Definition state_after (ks : list call) : Connect4 :=
  match connect4.run ks with
  | Ok (_, s) => s
  | _ => connect4.__init__
  end.

(** What the loops rely on: the dimensions are the constants and the board
    has them.  [_winning_span] runs inside [drop], on a state no call
    returns, so its properties are stated for every such state. *)
Definition well_formed (s : Connect4) : Prop :=
  rows s = connect4.ROWS ∧ cols s = connect4.COLS ∧ shaped (board s).

(** The answer [_winning_span] has to give at [(r, c)], held by [player],
    when the directions are tried in the order [dirs]. *)
Definition first_line (b : grid) (player r c : Z) (dirs : list (Z * Z))
    (res : option span) : Prop :=
  (res = None ∧ ∀ d, d ∈ dirs → short_along b player r c d)
  ∨ (∃ pre d post f k,
       dirs = pre ++ d :: post
       ∧ (∀ d', d' ∈ pre → short_along b player r c d')
       ∧ line_through b player r c d f k
       ∧ 4 ≤ 1 + f + k
       ∧ res = Some ((r - k * d.1, c - k * d.2), (r + f * d.1, c + f * d.2))).

(** The three states of an accepted [drop]: after the disc is placed and
    counted, where [_winning_span] is called; after a winning move; after
    another move. *)
Definition placed (s : Connect4) (row col : Z) : Connect4 :=
  {| rows := rows s; cols := cols s;
     board := grid_update (board s) row col (current s);
     current := current s; winner := winner s;
     move_count := move_count s + 1; win_line := win_line s |}.

Definition won (s : Connect4) (line : span) : Connect4 :=
  {| rows := rows s; cols := cols s; board := board s;
     current := current s; winner := Some (current s);
     move_count := move_count s; win_line := Some line |}.

Definition passed (s : Connect4) : Connect4 :=
  {| rows := rows s; cols := cols s; board := board s;
     current := 1 - current s; winner := winner s;
     move_count := move_count s; win_line := win_line s |}.

(** When [drop] rejects column [col]. *)
Definition rejected (s : Connect4) (col : Z) : Prop :=
  winner s ≠ None ∨ ¬ (0 ≤ col < cols s) ∨ disc_at (board s) 0 col.

(** Positions used as examples. *)
Definition horizontal_four : Connect4 :=
  state_after (drops [0; 0; 1; 1; 2; 2; 3]).

Definition three_moves : Connect4 := state_after (drops [3; 3; 2]).

Definition full_column : Connect4 := state_after (drops [0; 0; 0; 0; 0; 0]).

Definition before_last_move : Connect4 :=
  state_after (drops (take 41 draw_game)).

Definition drawn : Connect4 := state_after (drops draw_game).

(** The eight directions [count_and_last] is called with. *)
Definition unit_step (dr dc : Z) : Prop :=
  (dr = -1 ∨ dr = 0 ∨ dr = 1) ∧ (dc = -1 ∨ dc = 0 ∨ dc = 1)
  ∧ (dr ≠ 0 ∨ dc ≠ 0).

(** A bound on the number of cells of the grid from [(rr, cc)] on in
    direction [(dr, dc)]. *)
Definition room (dr dc rr cc : Z) : Z :=
  (if dr =? 1 then connect4.ROWS - rr else if dr =? -1 then rr + 1 else 0)
  + (if dc =? 1 then connect4.COLS - cc else if dc =? -1 then cc + 1 else 0).

(** The number of discs of player [p] on the board. *)
Definition owned_in_row (p : Z) (row : list Z) : nat :=
  length (filter (λ v, v = p) row).

Definition owned (p : Z) (b : grid) : Z :=
  Z.of_nat (sum_list_with (owned_in_row p) b).

(** Four cells in a row from [(r, c)] along [d], all held by [p]. *)
Definition four_from (b : grid) (p r c : Z) (d : Z * Z) : Prop :=
  ∀ i, 0 ≤ i ≤ 3 → cell b (r + i * d.1) (c + i * d.2) = Some p.

(** The calls that are not [reset]. *)
Definition no_reset (ks : list call) : Prop := Forall (λ k, k ≠ CallReset) ks.

(** What a finished game answers to a call. *)
Definition answer_when_over (s : Connect4) (k : call) : retval :=
  match k with
  | CallDrop _ => RetDrop None
  | CallReset => RetReset
  | CallIsDraw => RetIsDraw (connect4.is_draw s)
  end.

(** The window: what [redraw] puts on the canvas for the game [g] and the
    hovered column [hover], and the text [update_status] gives the label. *)
Definition disc_colour (v : Z) : string :=
  if v =? 0 then "#e63946" else if v =? 1 then "#ffd166" else "#f1faee".

Definition cell_oval (r c : Z) (fill : string) : App.item :=
  App.Oval (c * App.CELL + App.PADDING) (r * App.CELL + App.PADDING)
    ((c + 1) * App.CELL - App.PADDING) ((r + 1) * App.CELL - App.PADDING)
    fill "#111".

Definition game_over (g : Connect4) : Prop :=
  winner g ≠ None ∨ connect4.is_draw g = true.

Definition hover_items (g : Connect4) (hover : option Z) : list App.item :=
  match hover with
  | Some h =>
      if bool_decide (winner g = None) && negb (connect4.is_draw g)
      then [App.Rectangle (h * App.CELL) 0 (h * App.CELL + App.CELL)
              (App.ROWS * App.CELL) "#2E386D" ""]
      else []
  | None => []
  end.

Definition oval_items (b : grid) : list App.item :=
  range App.ROWS ≫= λ r,
    (λ c, cell_oval r c (disc_colour (default (-1) (cell b r c))))
      <$> range App.COLS.

Definition line_items (g : Connect4) : list App.item :=
  match win_line g with
  | Some ((r0, c0), (r1, c1)) =>
      [App.Line (c0 * App.CELL + 40) (r0 * App.CELL + 40)
         (c1 * App.CELL + 40) (r1 * App.CELL + 40) "#06d6a0" 8]
  | None => []
  end.

Definition drawing (g : Connect4) (hover : option Z) : list App.item :=
  hover_items g hover ++ oval_items (board g) ++ line_items g.

Definition player_name (p : Z) : string :=
  if p =? 0 then "Red" else "Yellow".

Definition status_text (g : Connect4) : string :=
  match winner g with
  | Some w => player_name w +:+ " wins! Click 'New Game' to play again."
  | None =>
      if connect4.is_draw g
      then "It's a draw. Click 'New Game' to play again."
      else player_name (current g) +:+ "'s move: click a column."
  end.

Record app_inv (a : App.state) : Prop := MkAppInv {
  app_game : reachable (App.game a);
  app_hover : ∀ h, App.hover_col a = Some h → 0 ≤ h < App.COLS;
  app_canvas : App.canvas a = drawing (App.game a) (App.hover_col a);
  app_status : App.status a = status_text (App.game a)
}.

(** The window as [App.__init__] leaves it, and a window after events. *)
Definition initial_window : App.state :=
  {| App.game := connect4.__init__; App.hover_col := None;
     App.status := "Red's move: click a column.";
     App.canvas := drawing connect4.__init__ None |}.

Fixpoint events_from (a : App.state) (es : list App.event) : result App.state :=
  match es with
  | [] => Ok a
  | e :: es' => let* a' := App.handle a e in events_from a' es'
  end.

Definition window_after (es : list App.event) : App.state :=
  match events_from initial_window es with
  | Ok a => a
  | _ => initial_window
  end.

Definition won_window : App.state :=
  window_after (App.Click <$> [10; 20; 90; 100; 170; 180; 250]).

Definition hovering_window : App.state :=
  window_after [App.Click 250; App.Motion 170].

(** The console: the text of a board. *)
Definition symbol (v : Z) : string :=
  if v =? 0 then "R" else if v =? 1 then "Y" else console.EMPTY.

Definition line_text (row : list Z) : string :=
  " " +:+ join " " (symbol <$> row).

Definition board_text (b : grid) : string :=
  join nl (" 1 2 3 4 5 6 7" :: (line_text <$> b)).

Definition valid_cell (v : Z) : Prop := v = -1 ∨ v = 0 ∨ v = 1.

(** The console: the lines [prompt_column] does not accept, and what the
    program writes last when the game is over. *)
Definition quit_word (lower : string → string) (raw : string) : Prop :=
  lower raw ∈ ["q"; "quit"; "exit"].

Definition refused (strip lower : string → string) (int : string → option Z)
    (line : string) : Prop :=
  ¬ quit_word lower (strip line)
  ∧ ∀ n, int (strip line) = Some n → ¬ (1 ≤ n ≤ console.COLS).


(** A stand-in for [int] on the one-digit numerals, for the examples. *)
Definition digit_int (s : string) : option Z :=
  if bool_decide (s ∈ ["0"; "1"; "2"; "3"; "4"; "5"; "6"; "7"; "8"; "9"])
  then match s with
       | String a "" => Some (Z.of_nat (Ascii.nat_of_ascii a) - 48)
       | _ => None
       end
  else None.

(** Expose the dimensions as numerals, for [lia]. *)
Ltac dims :=
  unfold on_grid, connect4.ROWS, connect4.COLS in *;
  change (Z.to_nat 6) with 6%nat in *;
  change (Z.to_nat 7) with 7%nat in *;
  simpl fst in *; simpl snd in *.

(** ** Python subscripts *)

Lemma norm_index_nonneg n i :
  0 ≤ i →
  norm_index n i = if i <? Z.of_nat n then Some (Z.to_nat i) else None.
Proof.
  intros Hi. unfold norm_index.
  destruct (i <? 0) eqn:E; [lia|].
  destruct (0 <=? i) eqn:E0; [|lia]. reflexivity.
Qed.

Lemma getitem_nonneg {A} (l : list A) i :
  0 ≤ i →
  getitem l i = match l !! Z.to_nat i with Some x => Ok x | None => IndexError end.
Proof.
  intros Hi. unfold getitem. rewrite norm_index_nonneg by done.
  destruct (i <? Z.of_nat (length l)) eqn:E; [done|].
  rewrite (lookup_ge_None_2 l (Z.to_nat i)); [done|lia].
Qed.

Lemma setitem_nonneg {A} (l : list A) i x :
  0 ≤ i → is_Some (l !! Z.to_nat i) →
  setitem l i x = Ok (<[Z.to_nat i := x]> l).
Proof.
  intros Hi Hs. apply lookup_lt_is_Some in Hs.
  unfold setitem. rewrite norm_index_nonneg by done.
  destruct (i <? Z.of_nat (length l)) eqn:E; [done|lia].
Qed.

Lemma board_get_cell b r c :
  0 ≤ r → 0 ≤ c →
  board_get b r c = match cell b r c with Some v => Ok v | None => IndexError end.
Proof.
  intros Hr Hc. unfold board_get, cell.
  destruct (0 <=? r) eqn:Er; [|lia]. destruct (0 <=? c) eqn:Ec; [|lia].
  rewrite getitem_nonneg by done. simpl.
  destruct (b !! Z.to_nat r) as [row|]; simpl; [|done].
  by rewrite getitem_nonneg.
Qed.

Lemma board_set_cell b r c v :
  0 ≤ r → 0 ≤ c → is_Some (cell b r c) →
  board_set b r c v = Ok (grid_update b r c v).
Proof.
  intros Hr Hc [x Hx]. unfold board_set, grid_update. unfold cell in Hx.
  destruct (0 <=? r) eqn:Er; [|lia]. destruct (0 <=? c) eqn:Ec; [|lia].
  simpl in Hx. rewrite getitem_nonneg by done.
  destruct (b !! Z.to_nat r) as [row|] eqn:Hrow; simpl in *; [|done].
  rewrite setitem_nonneg by eauto. simpl.
  rewrite setitem_nonneg by eauto.
  f_equal. apply list_eq. intros i.
  destruct (decide (i = Z.to_nat r)) as [->|Hne].
  - rewrite list_lookup_alter_eq, Hrow. simpl.
    apply list_lookup_insert_eq. by eapply lookup_lt_Some.
  - by rewrite list_lookup_alter_ne, list_lookup_insert_ne.
Qed.

(** ** Grids *)

Lemma cell_nonneg b r c v : cell b r c = Some v → 0 ≤ r ∧ 0 ≤ c.
Proof.
  unfold cell. destruct (0 <=? r) eqn:Er, (0 <=? c) eqn:Ec; simpl; try done.
  lia.
Qed.

Lemma cell_lookup b r c :
  0 ≤ r → 0 ≤ c →
  cell b r c = b !! Z.to_nat r ≫= (λ row, row !! Z.to_nat c).
Proof.
  intros Hr Hc. unfold cell.
  destruct (0 <=? r) eqn:Er; [|lia]. by destruct (0 <=? c) eqn:Ec; [|lia].
Qed.

Lemma cell_on_grid b r c v :
  shaped b → cell b r c = Some v → on_grid (r, c).
Proof.
  intros [Hlen Hrows] Hcell.
  destruct (cell_nonneg _ _ _ _ Hcell) as [Hr Hc].
  rewrite cell_lookup in Hcell by done.
  destruct (b !! Z.to_nat r) as [row|] eqn:Hrow; simpl in Hcell; [|done].
  pose proof (lookup_lt_Some _ _ _ Hrow) as Hlt.
  pose proof (lookup_lt_Some _ _ _ Hcell) as Hlt'.
  rewrite Forall_lookup in Hrows. rewrite (Hrows _ _ Hrow) in Hlt'.
  dims. lia.
Qed.

Lemma cell_is_Some b r c :
  shaped b → on_grid (r, c) → is_Some (cell b r c).
Proof.
  intros [Hlen Hrows] [[Hr Hr'] [Hc Hc']]. dims.
  rewrite cell_lookup by done.
  destruct (lookup_lt_is_Some_2 b (Z.to_nat r)) as [row Hrow]; [lia|].
  rewrite Hrow. simpl. apply lookup_lt_is_Some_2.
  rewrite Forall_lookup in Hrows. rewrite (Hrows _ _ Hrow). lia.
Qed.

Lemma cell_off_grid b r c :
  shaped b → ¬ on_grid (r, c) → cell b r c = None.
Proof.
  intros Hb Hoff. destruct (cell b r c) as [v|] eqn:E; [|done].
  destruct Hoff. by eapply cell_on_grid.
Qed.

Lemma cell_grid_update b r c v r' c' :
  is_Some (cell b r c) →
  cell (grid_update b r c v) r' c'
  = if decide (r' = r ∧ c' = c) then Some v else cell b r' c'.
Proof.
  intros [x Hx]. destruct (cell_nonneg _ _ _ _ Hx) as [Hr Hc].
  rewrite cell_lookup in Hx by done.
  destruct (b !! Z.to_nat r) as [row|] eqn:Hrow; simpl in Hx; [|done].
  case_decide as Hd.
  - destruct Hd as [-> ->]. rewrite cell_lookup by done.
    unfold grid_update. rewrite list_lookup_alter_eq, Hrow. simpl.
    apply list_lookup_insert_eq. by eapply lookup_lt_Some.
  - unfold cell. destruct ((0 <=? r') && (0 <=? c')) eqn:E; [|done].
    apply andb_prop in E as [Er' Ec'].
    unfold grid_update.
    destruct (decide (Z.to_nat r = Z.to_nat r')) as [Heq|Hne].
    + rewrite <- Heq, list_lookup_alter_eq, Hrow. simpl.
      apply list_lookup_insert_ne. intros Heq'. apply Hd. lia.
    + by rewrite list_lookup_alter_ne.
Qed.

Lemma shaped_grid_update b r c v : shaped b → shaped (grid_update b r c v).
Proof.
  intros [Hlen Hrows]. unfold grid_update. split.
  - by rewrite length_alter.
  - rewrite Forall_lookup in *. intros i row Hi.
    destruct (decide (i = Z.to_nat r)) as [->|Hne].
    + rewrite list_lookup_alter_eq in Hi.
      destruct (b !! Z.to_nat r) as [row0|] eqn:Hrow; simplify_eq/=.
      rewrite length_insert. eauto.
    + rewrite list_lookup_alter_ne in Hi by done. eauto.
Qed.

Lemma discs_in_row_insert row j v :
  row !! j = Some (-1) → v ≠ -1 →
  discs_in_row (<[j := v]> row) = S (discs_in_row row).
Proof.
  unfold discs_in_row. revert j. induction row as [|x row IH]; intros j Hj Hv.
  - done.
  - destruct j as [|j]; simpl in *.
    + simplify_eq. rewrite filter_cons_True by done.
      by rewrite filter_cons_False by (intros H; by apply H).
    + rewrite !filter_cons. destruct (decide (x ≠ -1)); simpl; by rewrite IH.
Qed.

Lemma discs_grid_update b r c v :
  empty_at b r c → v ≠ -1 →
  discs (grid_update b r c v) = discs b + 1.
Proof.
  unfold empty_at, discs, grid_update. intros Hx Hv.
  destruct (cell_nonneg _ _ _ _ Hx) as [Hr Hc].
  rewrite cell_lookup in Hx by done.
  assert (sum_list_with discs_in_row
            (alter (λ row, <[Z.to_nat c := v]> row) (Z.to_nat r) b)
          = S (sum_list_with discs_in_row b)) as ->; [|lia].
  revert Hx. generalize (Z.to_nat r) as i. clear Hr.
  induction b as [|row b IH]; intros i Hx; [done|].
  destruct i as [|i]; simpl in *.
  - by rewrite discs_in_row_insert.
  - specialize (IH i Hx). unfold alter in IH. lia.
Qed.

Lemma discs_in_row_full row :
  discs_in_row row = length row → Forall (λ v, v ≠ -1) row.
Proof.
  unfold discs_in_row. induction row as [|x row IH]; intros H; [done|].
  rewrite filter_cons in H. pose proof (length_filter (λ v, v ≠ -1) row).
  destruct (decide (x ≠ -1)); simpl in H; [|lia].
  constructor; [done|]. apply IH. lia.
Qed.

Lemma discs_full b r c :
  shaped b → discs b = connect4.ROWS * connect4.COLS →
  on_grid (r, c) → disc_at b r c.
Proof.
  intros Hb Hfull Hrc.
  assert (Forall (λ row : list Z, discs_in_row row = length row) b) as Hall.
  { destruct Hb as [Hlen Hrows]. unfold discs in Hfull.
    dims.
    assert (sum_list_with discs_in_row b = (length b * 7)%nat) as Hsum
      by (rewrite Hlen; lia).
    clear Hfull Hlen Hrc. induction Hrows as [|row b Hrow Hrows IH]; [done|].
    simpl in Hsum.
    pose proof (length_filter (λ v, v ≠ -1) row) as Hle.
    fold (discs_in_row row) in Hle.
    assert (sum_list_with discs_in_row b ≤ length b * 7)%nat as Hle'.
    { clear IH Hsum. induction Hrows as [|row' b' Hrow' Hrows' IH']; simpl.
      - lia.
      - pose proof (length_filter (λ v, v ≠ -1) row') as H'.
        fold (discs_in_row row') in H'. lia. }
    constructor; [lia|]. apply IH. lia. }
  destruct (cell_is_Some b r c Hb Hrc) as [v Hv]. exists v. split; [done|].
  destruct Hrc as [[Hr _] [Hc _]]. simpl in Hr, Hc.
  rewrite cell_lookup in Hv by done.
  destruct (b !! Z.to_nat r) as [row|] eqn:Hrow; simpl in Hv; [|done].
  rewrite Forall_lookup in Hall. apply Hall in Hrow.
  apply discs_in_row_full in Hrow. rewrite Forall_lookup in Hrow. eauto.
Qed.

(** ** The loops of [connect4.py] *)

Import connect4.

Lemma drop_loop_spec b col :
  shaped b → 0 ≤ col < COLS →
  ∀ fuel row,
    -1 ≤ row < ROWS → (Z.to_nat (row + 1) < fuel)%nat →
    ∃ row', drop_loop fuel b col row = Ok row'
      ∧ -1 ≤ row' ≤ row
      ∧ (∀ r, row' < r ≤ row → disc_at b r col)
      ∧ (0 ≤ row' → empty_at b row' col).
Proof.
  intros Hb Hcol fuel. induction fuel as [|fuel IH]; intros row Hrow Hfuel.
  - lia.
  - cbn [drop_loop]. destruct (0 <=? row) eqn:E.
    + apply Z.leb_le in E.
      destruct (cell_is_Some b row col Hb) as [v Hv]; [dims; lia|].
      rewrite board_get_cell, Hv by lia. cbn [bind].
      destruct (v =? -1) eqn:Ev; cbn [negb].
      * apply Z.eqb_eq in Ev. subst v. exists row.
        repeat split; first [done | lia | intros; lia].
      * apply Z.eqb_neq in Ev.
        destruct (IH (row - 1)) as (row' & Hrun & Hle & Hdiscs & Hempty);
          [lia|lia|].
        exists row'. split; [done|]. split; [lia|]. split; [|done].
        intros r Hr. destruct (decide (r = row)) as [->|Hne].
        -- by exists v.
        -- apply Hdiscs. lia.
    + apply Z.leb_gt in E. cbn [bind]. exists row.
      repeat split; first [done | lia | intros; lia].
Qed.

Lemma count_loop_spec s player dr dc :
  rows s = ROWS → cols s = COLS → shaped (board s) → unit_step dr dc →
  ∀ fuel rr cc n last_r last_c,
    (1 ≤ fuel)%nat →
    (on_grid (rr, cc) → room dr dc rr cc < Z.of_nat fuel) →
    ∃ k, 0 ≤ k
      ∧ (∀ i, 0 ≤ i < k →
           cell (board s) (rr + i * dr) (cc + i * dc) = Some player)
      ∧ cell (board s) (rr + k * dr) (cc + k * dc) ≠ Some player
      ∧ count_loop fuel s player dr dc rr cc n last_r last_c
        = Ok (n + k,
              if k =? 0 then last_r else rr + (k - 1) * dr,
              if k =? 0 then last_c else cc + (k - 1) * dc).
Proof.
  intros Hrows Hcols Hb Hstep fuel.
  induction fuel as [|fuel IH]; intros rr cc n last_r last_c Hfuel Hroom.
  - lia.
  - cbn [count_loop]. rewrite Hrows, Hcols.
    destruct ((0 <=? rr) && (rr <? ROWS) && (0 <=? cc) && (cc <? COLS)) eqn:E.
    + assert (on_grid (rr, cc)) as Hon by (dims; lia).
      destruct (cell_is_Some _ _ _ Hb Hon) as [v Hv].
      rewrite board_get_cell, Hv by (dims; lia). cbn [bind].
      destruct (v =? player) eqn:Ev.
      * apply Z.eqb_eq in Ev. subst v.
        specialize (Hroom Hon).
        destruct (IH (rr + dr) (cc + dc) (n + 1) rr cc)
          as (k & Hk & Hrun & Hstop & Hloop).
        { unfold room, unit_step in *. dims.
          destruct Hstep as ([-> | [-> | ->]] & [-> | [-> | ->]] & Hnz);
            simpl in Hroom; lia. }
        { unfold room, unit_step in *. dims. intros Hon'.
          destruct Hstep as ([-> | [-> | ->]] & [-> | [-> | ->]] & Hnz);
            simpl in *; lia. }
        exists (k + 1). rewrite Hloop. repeat split.
        -- lia.
        -- intros i Hi. destruct (decide (i = 0)) as [->|Hne].
           ++ by rewrite !Z.mul_0_l, !Z.add_0_r.
           ++ specialize (Hrun (i - 1)).
              replace (rr + dr + (i - 1) * dr) with (rr + i * dr) in Hrun by lia.
              replace (cc + dc + (i - 1) * dc) with (cc + i * dc) in Hrun by lia.
              apply Hrun. lia.
        -- replace (rr + (k + 1) * dr) with (rr + dr + k * dr) by lia.
           by replace (cc + (k + 1) * dc) with (cc + dc + k * dc) by lia.
        -- destruct (k + 1 =? 0) eqn:E1; [lia|].
           destruct (k =? 0) eqn:E0.
           ++ apply Z.eqb_eq in E0. subst k. do 2 f_equal; [f_equal|]; lia.
           ++ do 2 f_equal; [f_equal|]; lia.
      * apply Z.eqb_neq in Ev. exists 0. repeat split.
        -- lia.
        -- intros i Hi. lia.
        -- rewrite !Z.mul_0_l, !Z.add_0_r, Hv. congruence.
        -- simpl. by rewrite Z.add_0_r.
    + cbn [bind]. exists 0. repeat split.
      * lia.
      * intros i Hi. lia.
      * rewrite !Z.mul_0_l, !Z.add_0_r, cell_off_grid; [done|done|].
        dims. lia.
      * simpl. by rewrite Z.add_0_r.
Qed.

Lemma count_and_last_spec s player r c dr dc :
  rows s = ROWS → cols s = COLS → shaped (board s) → unit_step dr dc →
  on_grid (r, c) →
  ∃ k, run_length (board s) player r c dr dc k
    ∧ count_and_last s player r c dr dc = Ok (k, r + k * dr, c + k * dc).
Proof.
  intros Hrows Hcols Hb Hstep Hon.
  destruct (count_loop_spec s player dr dc Hrows Hcols Hb Hstep
              (count_fuel s) (r + dr) (c + dc) 0 r c)
    as (k & Hk & Hrun & Hstop & Hloop).
  { unfold count_fuel. lia. }
  { unfold count_fuel, room, unit_step in *. rewrite Hrows, Hcols. dims.
    intros Hon'.
    destruct Hstep as ([-> | [-> | ->]] & [-> | [-> | ->]] & Hnz);
      simpl; lia. }
  exists k. split.
  - split; [done|]. split.
    + intros i Hi. specialize (Hrun (i - 1)).
      replace (r + dr + (i - 1) * dr) with (r + i * dr) in Hrun by lia.
      replace (c + dc + (i - 1) * dc) with (c + i * dc) in Hrun by lia.
      apply Hrun. lia.
    + replace (r + (k + 1) * dr) with (r + dr + k * dr) by lia.
      by replace (c + (k + 1) * dc) with (c + dc + k * dc) by lia.
  - unfold count_and_last. rewrite Hloop. simpl.
    destruct (k =? 0) eqn:E0.
    + apply Z.eqb_eq in E0. subst k. do 2 f_equal; [f_equal|]; lia.
    + do 2 f_equal; [f_equal|]; lia.
Qed.

(** ** The win detector *)

Lemma run_length_unique b player r c dr dc n m :
  run_length b player r c dr dc n → run_length b player r c dr dc m → n = m.
Proof.
  intros (Hn & Hrun_n & Hstop_n) (Hm & Hrun_m & Hstop_m).
  destruct (Z.lt_trichotomy n m) as [Hlt | [Heq | Hgt]]; [|done|].
  - destruct Hstop_n. apply Hrun_m. lia.
  - destruct Hstop_m. apply Hrun_n. lia.
Qed.

Lemma unit_step_opp dr dc : unit_step dr dc → unit_step (- dr) (- dc).
Proof. unfold unit_step. lia. Qed.

Lemma unit_step_directions d : d ∈ directions → unit_step d.1 d.2.
Proof.
  unfold directions. rewrite !elem_of_cons, elem_of_nil.
  intros [-> | [-> | [-> | [-> | []]]]]; unfold unit_step; simpl; lia.
Qed.

Lemma run_length_on_grid b player r c dr dc n :
  shaped b → on_grid (r, c) → run_length b player r c dr dc n →
  on_grid (r + n * dr, c + n * dc).
Proof.
  intros Hb Hon (Hn & Hrun & _).
  destruct (decide (n = 0)) as [->|Hne].
  - by rewrite !Z.mul_0_l, !Z.add_0_r.
  - eapply cell_on_grid; [done|]. apply Hrun. lia.
Qed.

Lemma span_loop_spec s player r c dirs :
  well_formed s → on_grid (r, c) →
  (∀ d, d ∈ dirs → unit_step d.1 d.2) →
  ∃ res, span_loop s player r c dirs = Ok res
    ∧ first_line (board s) player r c dirs res.
Proof.
  intros (Hrows & Hcols & Hb) Hon.
  induction dirs as [|[dr dc] dirs IH]; intros Hdirs.
  - exists None. split; [done|]. left. split; [done|].
    intros d Hd. by apply elem_of_nil in Hd.
  - assert (unit_step dr dc) as Hstep by (apply (Hdirs (dr, dc)); left).
    destruct (count_and_last_spec s player r c dr dc)
      as (f & Hf & Hfwd); try done.
    destruct (count_and_last_spec s player r c (- dr) (- dc))
      as (k & Hk & Hbwd); try done; [by apply unit_step_opp|].
    cbn [span_loop]. rewrite Hfwd. cbn [bind]. rewrite Hbwd. cbn [bind].
    destruct (4 <=? 1 + f + k) eqn:E.
    + apply Z.leb_le in E. eexists. split; [done|]. right.
      exists [], (dr, dc), dirs, f, k. simpl.
      split; [done|]. split; [|split; [by split|split; [done|]]].
      * intros d' Hd'. by apply elem_of_nil in Hd'.
      * do 3 f_equal; lia.
    + apply Z.leb_gt in E.
      destruct IH as (res & Hres & Hspec).
      { intros d Hd. apply Hdirs. by right. }
      exists res. split; [done|].
      assert (short_along (board s) player r c (dr, dc)) as Hshort.
      { exists f, k. split; [by split|lia]. }
      destruct Hspec as [[-> Hall] | (pre & d & post & f' & k' & Hsplit
                                      & Hpre & Hline & Hfour & ->)].
      * left. split; [done|]. intros d [-> | Hd]%elem_of_cons; auto.
      * right. exists ((dr, dc) :: pre), d, post, f', k'.
        split; [simpl; by rewrite Hsplit|]. split; [|done].
        intros d' [-> | Hd']%elem_of_cons; auto.
Qed.

Lemma winning_span_spec s r c player :
  well_formed s → cell (board s) r c = Some player → player ≠ -1 →
  ∃ res, _winning_span s r c = Ok res
    ∧ first_line (board s) player r c directions res.
Proof.
  intros Hwf Hcell Hplayer.
  assert (on_grid (r, c)) as Hon by (eapply cell_on_grid; [apply Hwf|done]).
  destruct (span_loop_spec s player r c directions Hwf Hon
              unit_step_directions) as (res & Hres & Hspec).
  exists res. split; [|done].
  unfold _winning_span. dims. rewrite board_get_cell, Hcell by lia.
  cbn [bind]. by destruct (player =? -1) eqn:E; [lia|].
Qed.

Lemma winning_span_total s r c :
  well_formed s → on_grid (r, c) →
  ∃ res, _winning_span s r c = Ok res
    ∧ ∀ p q, res = Some (p, q) → on_grid p ∧ on_grid q.
Proof.
  intros Hwf Hon.
  destruct (cell_is_Some (board s) r c) as [player Hcell];
    [apply Hwf|done|].
  destruct (decide (player = -1)) as [->|Hplayer].
  - exists None. split; [|done].
    unfold _winning_span. dims. by rewrite board_get_cell, Hcell by lia.
  - destruct (winning_span_spec s r c player) as (res & Hres & Hspec);
      try done.
    exists res. split; [done|]. intros p q ->.
    destruct Hspec as [[? _] | (pre & d & post & f & k & Hsplit
                                & _ & [Hf Hk] & _ & Heq)]; [done|].
    destruct Hwf as (_ & _ & Hb).
    apply (run_length_on_grid _ _ _ _ _ _ _ Hb Hon) in Hf, Hk.
    simplify_eq. split; [|done].
    by replace (r - k * d.1) with (r + k * - d.1) by lia;
       replace (c - k * d.2) with (c + k * - d.2) by lia.
Qed.

(** ** [drop] *)

Lemma well_formed_placed s row col : well_formed s → well_formed (placed s row col).
Proof.
  intros (Hrows & Hcols & Hb). repeat split; simpl; try done;
    by apply shaped_grid_update, Hb.
Qed.

Lemma drop_rejected s col :
  well_formed s → rejected s col → drop s col = Ok (None, s).
Proof.
  intros (Hrows & Hcols & Hb) Hrej. unfold drop.
  case_bool_decide as Hw; [done|].
  destruct Hrej as [Hrej | [Hrej | (v & Hv & Hne)]]; [done| |].
  - destruct ((0 <=? col) && (col <? cols s)) eqn:E; [lia|done].
  - apply cell_on_grid in Hv as Hon; [|done]. rewrite Hcols. dims.
    destruct ((0 <=? col) && (col <? 7)) eqn:E; [|done]. cbn [negb].
    rewrite board_get_cell, Hv by lia. cbn [bind].
    by destruct (v =? -1) eqn:Ev; [lia|].
Qed.

Lemma drop_accepted s col :
  well_formed s → winner s = None → 0 ≤ col < COLS →
  empty_at (board s) 0 col →
  ∃ row res,
    0 ≤ row < ROWS
    ∧ empty_at (board s) row col
    ∧ (∀ r, row < r < ROWS → disc_at (board s) r col)
    ∧ _winning_span (placed s row col) row col = Ok res
    ∧ (∀ p q, res = Some (p, q) → on_grid p ∧ on_grid q)
    ∧ drop s col
      = Ok (Some row,
            match res with
            | Some line => won (placed s row col) line
            | None => passed (placed s row col)
            end).
Proof.
  intros Hwf Hw Hcol Htop. pose proof Hwf as (Hrows & Hcols & Hb).
  destruct (drop_loop_spec (board s) col Hb Hcol (drop_fuel s) (rows s - 1))
    as (row & Hloop & Hrow & Hbelow & Hempty).
  { rewrite Hrows. dims. lia. }
  { unfold drop_fuel. rewrite Hrows. dims. lia. }
  rewrite Hrows in Hrow, Hbelow.
  assert (0 ≤ row) as Hrow0.
  { destruct (decide (0 ≤ row)) as [|Hneg]; [done|].
    destruct (Hbelow 0) as (v & Hv & Hne); [dims; lia|].
    unfold empty_at in Htop. congruence. }
  specialize (Hempty Hrow0).
  destruct (winning_span_total (placed s row col) row col)
    as (res & Hres & Hline).
  { by apply well_formed_placed. }
  { dims. lia. }
  exists row, res. split; [dims; lia|]. split; [done|].
  split; [intros r Hr; apply Hbelow; lia|]. split; [done|]. split; [done|].
  unfold drop. case_bool_decide as Hw'; [done|].
  destruct ((0 <=? col) && (col <? cols s)) eqn:E; [|dims; lia]. cbn [negb].
  rewrite board_get_cell, Htop by lia. cbn [bind].
  change (-1 =? -1) with true. cbn [negb]. rewrite Hloop. cbn [bind].
  rewrite board_set_cell by (try lia; by rewrite Hempty). cbn [bind].
  unfold placed in Hres. rewrite Hres. cbn [bind].
  by destruct res.
Qed.

(** On a well-formed state [drop] is total: it rejects or it accepts. *)
Lemma drop_total s col :
  well_formed s →
  rejected s col
  ∨ (winner s = None ∧ 0 ≤ col < COLS ∧ empty_at (board s) 0 col).
Proof.
  intros (Hrows & Hcols & Hb). unfold rejected. rewrite Hcols.
  destruct (winner s) as [w|]; [by left; left|].
  destruct (decide (0 ≤ col < COLS)) as [Hcol|Hcol]; [|by left; right; left].
  destruct (cell_is_Some (board s) 0 col Hb) as [v Hv]; [dims; lia|].
  destruct (decide (v = -1)) as [->|Hne]; [by right|].
  left. right. right. by exists v.
Qed.

(** ** [reset] *)

Lemma list_of_length_6 {A} (l : list A) :
  length l = 6%nat → ∃ a0 a1 a2 a3 a4 a5, l = [a0; a1; a2; a3; a4; a5].
Proof.
  intros H. do 6 (destruct l as [|? l]; [done|]).
  destruct l; [|done]. eauto 10.
Qed.

Lemma list_of_length_7 {A} (l : list A) :
  length l = 7%nat → ∃ a0 a1 a2 a3 a4 a5 a6, l = [a0; a1; a2; a3; a4; a5; a6].
Proof.
  intros H. do 7 (destruct l as [|? l]; [done|]).
  destruct l; [|done]. eauto 10.
Qed.

Lemma reset_fresh s : well_formed s → reset s = Ok __init__.
Proof.
  destruct s as [R C b cur w mc wl]. intros (HR & HC & Hlen & Hrows).
  simpl in *. subst R C. dims.
  destruct (list_of_length_6 b Hlen) as (r0 & r1 & r2 & r3 & r4 & r5 & ->).
  repeat match goal with
         | H : Forall _ (_ :: _) |- _ => apply Forall_cons in H as [? H]
         end.
  repeat match goal with
         | H : length ?r = 7%nat |- _ =>
             apply list_of_length_7 in H as (? & ? & ? & ? & ? & ? & ? & ->)
         end.
  reflexivity.
Qed.

(** ** The invariants *)

Lemma inv_well_formed s : inv s → well_formed s.
Proof. intros []. unfold well_formed. auto. Qed.

Lemma cell_Forall (P : Z → Prop) b r c v :
  Forall (Forall P) b → cell b r c = Some v → P v.
Proof.
  intros Hall Hcell. destruct (cell_nonneg _ _ _ _ Hcell) as [Hr Hc].
  rewrite cell_lookup in Hcell by done.
  destruct (b !! Z.to_nat r) as [row|] eqn:Hrow; simpl in Hcell; [|done].
  rewrite Forall_lookup in Hall. apply Hall in Hrow.
  rewrite Forall_lookup in Hrow. eauto.
Qed.

Lemma shaped_init : shaped (board __init__).
Proof. split; [done|]. repeat constructor. Qed.

Lemma cell_init r c : on_grid (r, c) → empty_at (board __init__) r c.
Proof.
  intros Hon. destruct (cell_is_Some _ r c shaped_init Hon) as [v Hv].
  unfold empty_at. rewrite Hv. f_equal.
  apply (cell_Forall (λ v, v = -1)) in Hv; [done|].
  repeat constructor.
Qed.

Lemma inv_init : inv __init__.
Proof.
  split.
  - done.
  - done.
  - apply shaped_init.
  - by left.
  - done.
  - split; [done|]. split; [done|]. done.
  - intros r c Hrc r' Hr'. apply cell_init.
    apply (cell_on_grid _ _ _ _ shaped_init) in Hrc. dims. lia.
Qed.

Lemma inv_placed s col row res :
  inv s → winner s = None →
  empty_at (board s) row col →
  (∀ r, row < r < ROWS → disc_at (board s) r col) →
  (∀ p q, res = Some (p, q) → on_grid p ∧ on_grid q) →
  inv (match res with
       | Some line => won (placed s row col) line
       | None => passed (placed s row col)
       end).
Proof.
  intros [Hrows Hcols Hb Hcur Hcount Hout Hgrav] Hw Hempty Hbelow Hline.
  assert (inv (placed s row col)) as [Hrows' Hcols' Hb' Hcur' Hcount' Hout' Hgrav'].
  { split; simpl; try done.
    - by apply shaped_grid_update.
    - unfold count_inv in *. simpl. rewrite discs_grid_update; [lia|done|lia].
    - intros r c Hrc r' Hr'. unfold empty_at in *.
      rewrite cell_grid_update in Hrc by (by rewrite Hempty).
      rewrite cell_grid_update by (by rewrite Hempty).
      case_decide as Hd; [destruct Hd; simplify_eq; lia|].
      case_decide as Hd'; [|by eapply Hgrav].
      destruct Hd' as [-> ->].
      apply (cell_on_grid _ _ _ _ Hb) in Hrc as Hon.
      destruct (Hbelow r) as (v & Hv & Hne); [dims; lia|]. congruence. }
  destruct res as [[p q]|]; split; simpl in *; try done.
  - split; [done|]. split; [intros w' [= <-]; lia|].
    intros p' q' [= <- <-]. by apply Hline.
  - lia.
Qed.

Lemma inv_drop s col r s' : inv s → drop s col = Ok (r, s') → inv s'.
Proof.
  intros Hinv Hdrop. pose proof (inv_well_formed _ Hinv) as Hwf.
  destruct (drop_total s col Hwf) as [Hrej | (Hw & Hcol & Htop)].
  - rewrite (drop_rejected _ _ Hwf Hrej) in Hdrop. by simplify_eq.
  - destruct (drop_accepted s col Hwf Hw Hcol Htop)
      as (row & res & Hrow & Hempty & Hbelow & _ & Hline & Heq).
    rewrite Heq in Hdrop. simplify_eq. by apply inv_placed.
Qed.

Lemma inv_step s k v s' : inv s → step s k = Ok (v, s') → inv s'.
Proof.
  intros Hinv Hstep. destruct k as [col| |]; simpl in Hstep.
  - destruct (drop s col) as [[r s'']| |] eqn:Hdrop; simplify_eq/=.
    by eapply inv_drop.
  - rewrite (reset_fresh s (inv_well_formed _ Hinv)) in Hstep.
    simplify_eq/=. apply inv_init.
  - by simplify_eq.
Qed.

Lemma reachable_inv s : reachable s → inv s.
Proof.
  induction 1 as [|s k v s' _ IH Hstep]; [apply inv_init|by eapply inv_step].
Qed.

(** Every sequence of calls runs to its end: no call raises. *)
Lemma step_total s k : inv s → ∃ v s', step s k = Ok (v, s').
Proof.
  intros Hinv. pose proof (inv_well_formed _ Hinv) as Hwf.
  destruct k as [col| |]; simpl.
  - destruct (drop_total s col Hwf) as [Hrej | (Hw & Hcol & Htop)].
    + rewrite (drop_rejected _ _ Hwf Hrej). simpl. eauto.
    + destruct (drop_accepted s col Hwf Hw Hcol Htop)
        as (row & res & _ & _ & _ & _ & _ & ->). simpl. eauto.
  - rewrite (reset_fresh s Hwf). simpl. eauto.
  - eauto.
Qed.

Lemma run_from_reachable ks : ∀ s vs s',
  reachable s → run_from s ks = Ok (vs, s') → reachable s'.
Proof.
  induction ks as [|k ks IH]; intros s vs s' Hs Hrun; simpl in Hrun.
  - by simplify_eq.
  - destruct (step s k) as [[v s1]| |] eqn:Hstep; simplify_eq/=.
    destruct (run_from s1 ks) as [[vs' s2]| |] eqn:Hrest; simplify_eq/=.
    eapply IH; [|done]. by eapply reach_step.
Qed.

Lemma state_after_reachable ks : reachable (state_after ks).
Proof.
  unfold state_after, run.
  destruct (run_from __init__ ks) as [[vs s]| |] eqn:Hrun;
    try apply reach_init.
  eapply run_from_reachable; [apply reach_init|done].
Qed.

(** ** The win detector finds the first line of four *)

(** C1.  Called on a cell that holds a disc, [_winning_span] tries the
    directions horizontal (0,1), vertical (1,0), diagonal (1,1), diagonal
    (1,-1) in this order.  With [f] the number of consecutive cells of the
    same owner forward from the cell and [k] the number backward, it reports
    a win exactly when [1 + f + k >= 4] for some direction; the line it
    reports is that of the first such direction, from the furthest backward
    cell to the furthest forward cell, so a longer run is spanned whole.
    It never raises. *)
Theorem winning_span_first_qualifying s r c player :
  well_formed s → cell (board s) r c = Some player → player ≠ -1 →
  directions = [(0, 1); (1, 0); (1, 1); (1, -1)]
  ∧ ∃ res, _winning_span s r c = Ok res
      ∧ (is_Some res ↔ ∃ d, d ∈ directions ∧ four_along (board s) player r c d)
      ∧ ((res = None ∧ ∀ d, d ∈ directions → short_along (board s) player r c d)
         ∨ (∃ pre d post f k,
              directions = pre ++ d :: post
              ∧ (∀ d', d' ∈ pre → short_along (board s) player r c d')
              ∧ run_length (board s) player r c d.1 d.2 f
              ∧ run_length (board s) player r c (- d.1) (- d.2) k
              ∧ 4 ≤ 1 + f + k
              ∧ res = Some ((r - k * d.1, c - k * d.2),
                            (r + f * d.1, c + f * d.2)))).
Proof.
  intros Hwf Hcell Hplayer. split; [done|].
  destruct (winning_span_spec s r c player Hwf Hcell Hplayer)
    as (res & Hres & Hspec).
  exists res. split; [done|]. split.
  - destruct Hspec as [[-> Hall] | (pre & d & post & f & k & Hsplit
                                    & _ & Hline & Hfour & ->)].
    + split; [by intros []|]. intros (d & Hd & f & k & [Hf Hk] & Hfour).
      destruct (Hall d Hd) as (f' & k' & [Hf' Hk'] & Hshort).
      rewrite (run_length_unique _ _ _ _ _ _ _ _ Hf Hf') in Hfour.
      rewrite (run_length_unique _ _ _ _ _ _ _ _ Hk Hk') in Hfour. lia.
    + split; [|by eauto]. intros _. exists d. split.
      * rewrite Hsplit. apply elem_of_app. right. by left.
      * by exists f, k.
  - destruct Hspec as [Hnone | (pre & d & post & f & k & Hsplit
                                & Hpre & [Hf Hk] & Hfour & ->)]; [by left|].
    right. by exists pre, d, post, f, k.
Qed.

Lemma winning_span_first_qualifying_witness :
  directions = [(0, 1); (1, 0); (1, 1); (1, -1)]
  ∧ ∃ res, _winning_span horizontal_four 5 3 = Ok res
      ∧ (is_Some res ↔ ∃ d, d ∈ directions ∧ four_along (board horizontal_four) 0 5 3 d)
      ∧ ((res = None ∧ ∀ d, d ∈ directions → short_along (board horizontal_four) 0 5 3 d)
         ∨ (∃ pre d post f k,
              directions = pre ++ d :: post
              ∧ (∀ d', d' ∈ pre → short_along (board horizontal_four) 0 5 3 d')
              ∧ run_length (board horizontal_four) 0 5 3 d.1 d.2 f
              ∧ run_length (board horizontal_four) 0 5 3 (- d.1) (- d.2) k
              ∧ 4 ≤ 1 + f + k
              ∧ res = Some ((5 - k * d.1, 3 - k * d.2),
                            (5 + f * d.1, 3 + f * d.2)))).
Proof.
  apply (winning_span_first_qualifying horizontal_four 5 3 0).
  - apply inv_well_formed, reachable_inv, state_after_reachable.
  - vm_compute. reflexivity.
  - lia.
Defined.

(** ** An accepted move *)

(** C2.  In a state with no winner, a column [col] in range whose top cell
    is empty accepts the move: [drop] returns the row [row] where the disc
    landed, [row] is the lowest empty row of the column (the cell was empty,
    so nothing is overwritten; every row below it holds a disc, so the disc
    does not float; every row above it is empty, so the disc is not put under
    another one), the cell now holds the current player's disc, no other cell
    changes, and [move_count] grows by one. *)
Theorem drop_lowest_empty_row s col :
  reachable s → winner s = None → 0 ≤ col < cols s →
  empty_at (board s) 0 col →
  ∃ row s',
    drop s col = Ok (Some row, s')
    ∧ 0 ≤ row < rows s
    ∧ empty_at (board s) row col
    ∧ (∀ r, row < r < rows s → disc_at (board s) r col)
    ∧ (∀ r, 0 ≤ r < row → empty_at (board s) r col)
    ∧ cell (board s') row col = Some (current s)
    ∧ (∀ r c, (r, c) ≠ (row, col) → cell (board s') r c = cell (board s) r c)
    ∧ move_count s' = move_count s + 1.
Proof.
  intros Hreach Hw Hcol Htop.
  pose proof (reachable_inv _ Hreach) as Hinv.
  pose proof (inv_well_formed _ Hinv) as Hwf.
  pose proof Hwf as (Hrows & Hcols & Hb). rewrite Hrows. rewrite Hcols in Hcol.
  destruct (drop_accepted s col Hwf Hw Hcol Htop)
    as (row & res & Hrow & Hempty & Hbelow & _ & _ & Heq).
  eexists row, _. split; [exact Heq|]. split; [done|]. split; [done|].
  split; [done|]. split.
  { intros r Hr. apply (inv_gravity _ Hinv row col Hempty). lia. }
  assert (is_Some (cell (board s) row col)) as Hsome by (by rewrite Hempty).
  destruct res; simpl; rewrite !cell_grid_update by done;
    (split; [by rewrite decide_True|]);
    (split; [|done]); intros r c Hne; rewrite cell_grid_update by done;
    rewrite decide_False; try done; intros [-> ->]; done.
Qed.

Lemma drop_lowest_empty_row_witness :
  ∃ row s',
    drop three_moves 3 = Ok (Some row, s')
    ∧ 0 ≤ row < rows three_moves
    ∧ empty_at (board three_moves) row 3
    ∧ (∀ r, row < r < rows three_moves → disc_at (board three_moves) r 3)
    ∧ (∀ r, 0 ≤ r < row → empty_at (board three_moves) r 3)
    ∧ cell (board s') row 3 = Some (current three_moves)
    ∧ (∀ r c, (r, c) ≠ (row, 3) → cell (board s') r c = cell (board three_moves) r c)
    ∧ move_count s' = move_count three_moves + 1.
Proof.
  apply (drop_lowest_empty_row three_moves 3).
  - apply state_after_reachable.
  - vm_compute. reflexivity.
  - vm_compute. split; [discriminate|reflexivity].
  - vm_compute. reflexivity.
Defined.

(** ** Whose turn it is after a move *)

(** C3, as the claim states it, fails: the last move of [draw_game] is
    accepted, creates no win and fills the board ([move_count] becomes
    [rows * cols]), and the turn still passes from player 1 to player 0. *)
Lemma drop_filling_board_flips :
  reachable before_last_move
  ∧ drop before_last_move 5 = Ok (Some 0, drawn)
  ∧ _winning_span (placed before_last_move 0 5) 0 5 = Ok None
  ∧ winner drawn = None
  ∧ move_count drawn = rows drawn * cols drawn
  ∧ current before_last_move = 1
  ∧ current drawn = 0
  ∧ current drawn ≠ current before_last_move.
Proof.
  split; [apply state_after_reachable|].
  split; [vm_compute; reflexivity|].
  split; [vm_compute; reflexivity|]. by vm_compute.
Qed.

(** C3, amended.  After an accepted [drop] the turn is unchanged if the
    move wins, that is if [_winning_span] finds a line at the cell just
    filled; after every other accepted move, also one that fills the board,
    the turn has passed to the other of the players 0 and 1. *)
Theorem drop_flips_unless_won s col row s' :
  reachable s → drop s col = Ok (Some row, s') →
  ∃ res,
    _winning_span (placed s row col) row col = Ok res
    ∧ (winner s' ≠ None ↔ is_Some res)
    ∧ (is_Some res → current s' = current s)
    ∧ (res = None →
       current s' = 1 - current s
       ∧ current s' ≠ current s
       ∧ (current s' = 0 ∨ current s' = 1)).
Proof.
  intros Hreach Hdrop.
  pose proof (reachable_inv _ Hreach) as Hinv.
  pose proof (inv_well_formed _ Hinv) as Hwf.
  destruct (drop_total s col Hwf) as [Hrej | (Hw & Hcol & Htop)].
  { by rewrite (drop_rejected _ _ Hwf Hrej) in Hdrop. }
  destruct (drop_accepted s col Hwf Hw Hcol Htop)
    as (row' & res & _ & _ & _ & Hres & _ & Heq).
  rewrite Heq in Hdrop. simplify_eq. exists res. split; [done|].
  pose proof (inv_current _ Hinv) as Hcur.
  destruct res as [line|]; simpl.
  - split; [by split; eauto|]. split; [done|]. by intros [=].
  - rewrite Hw. split; [split; [done|by intros []]|].
    split; [by intros []|]. intros _. lia.
Qed.

Lemma drop_flips_unless_won_witness :
  ∃ res,
    _winning_span (placed before_last_move 0 5) 0 5 = Ok res
    ∧ (winner (passed (placed before_last_move 0 5)) ≠ None ↔ is_Some res)
    ∧ (is_Some res →
       current (passed (placed before_last_move 0 5))
       = current before_last_move)
    ∧ (res = None →
       current (passed (placed before_last_move 0 5))
       = 1 - current before_last_move
       ∧ current (passed (placed before_last_move 0 5))
         ≠ current before_last_move
       ∧ (current (passed (placed before_last_move 0 5)) = 0
          ∨ current (passed (placed before_last_move 0 5)) = 1)).
Proof.
  apply (drop_flips_unless_won before_last_move 5 0).
  - apply state_after_reachable.
  - vm_compute. reflexivity.
Defined.

(** ** A rejected move *)

(** C4.  For every integer [col], negative or too large ones included:
    when a winner is set, or [col] is outside [0, cols), or the top cell of
    column [col] holds a disc, [drop] raises nothing, returns [None] and
    leaves the whole state as it was. *)
Theorem drop_rejects_without_change s col :
  reachable s → rejected s col → drop s col = Ok (None, s).
Proof.
  intros Hreach. apply drop_rejected, inv_well_formed, reachable_inv, Hreach.
Qed.

Lemma drop_rejects_without_change_witness :
  drop full_column 0 = Ok (None, full_column)
  ∧ drop full_column (-1) = Ok (None, full_column)
  ∧ drop full_column 7 = Ok (None, full_column)
  ∧ drop horizontal_four 4 = Ok (None, horizontal_four).
Proof.
  split; [|split; [|split]].
  - apply (drop_rejects_without_change full_column 0).
    + apply state_after_reachable.
    + right. right. exists 1. by vm_compute.
  - apply (drop_rejects_without_change full_column (-1)).
    + apply state_after_reachable.
    + right. left. vm_compute. by intros [H _].
  - apply (drop_rejects_without_change full_column 7).
    + apply state_after_reachable.
    + right. left. vm_compute. by intros [_ H].
  - apply (drop_rejects_without_change horizontal_four 4).
    + apply state_after_reachable.
    + left. by vm_compute.
Defined.

(** ** The two engines *)

Lemma count_loop_same fuel s player dr dc : ∀ rr cc n last_r last_c,
  connectk4.count_loop fuel s player dr dc rr cc n last_r last_c
  = connect4.count_loop fuel s player dr dc rr cc n last_r last_c.
Proof.
  induction fuel as [|fuel IH]; intros rr cc n last_r last_c; [done|].
  cbn [connectk4.count_loop connect4.count_loop].
  destruct (if (0 <=? rr) && (rr <? rows s) && (0 <=? cc) && (cc <? cols s)
            then let* v := board_get (board s) rr cc in Ok (v =? player)
            else Ok false) as [[]| |]; cbn [bind]; [apply IH|done..].
Qed.

Lemma count_and_last_same s player r c dr dc :
  connectk4.count_and_last s player r c dr dc
  = connect4.count_and_last s player r c dr dc.
Proof.
  unfold connectk4.count_and_last, connect4.count_and_last.
  cbv zeta. apply count_loop_same.
Qed.

Lemma span_loop_same s player r c dirs :
  connectk4.span_loop s player r c dirs = connect4.span_loop s player r c dirs.
Proof.
  induction dirs as [|[dr dc] dirs IH]; [done|].
  cbn [connectk4.span_loop connect4.span_loop].
  rewrite count_and_last_same.
  destruct (connect4.count_and_last s player r c dr dc)
    as [[[f_count f_r] f_c]| |]; cbn [bind]; [|done..].
  rewrite count_and_last_same.
  destruct (connect4.count_and_last s player r c (- dr) (- dc))
    as [[[b_count b_r] b_c]| |]; cbn [bind]; [|done..].
  cbv zeta. by rewrite IH.
Qed.

Lemma winning_span_same s r c :
  connectk4._winning_span s r c = connect4._winning_span s r c.
Proof.
  unfold connectk4._winning_span, connect4._winning_span.
  destruct (board_get (board s) r c) as [player| |]; cbn [bind]; [|done..].
  destruct (player =? -1); [done|]. apply span_loop_same.
Qed.

Lemma drop_loop_same fuel b col : ∀ row,
  connectk4.drop_loop fuel b col row = connect4.drop_loop fuel b col row.
Proof.
  induction fuel as [|fuel IH]; intros row; [done|].
  cbn [connectk4.drop_loop connect4.drop_loop].
  destruct (if 0 <=? row
            then let* v := board_get b row col in Ok (negb (v =? -1))
            else Ok false) as [[]| |]; cbn [bind]; [apply IH|done..].
Qed.

Lemma drop_same s col : connectk4.drop s col = connect4.drop s col.
Proof.
  unfold connectk4.drop, connect4.drop.
  case_bool_decide; [done|].
  destruct (if negb ((0 <=? col) && (col <? cols s)) then Ok true
            else let* top := board_get (board s) 0 col in
                 Ok (negb (top =? -1))) as [[]| |]; cbn [bind]; [done| |done..].
  unfold connectk4.drop_fuel, connect4.drop_fuel. rewrite drop_loop_same.
  destruct (connect4.drop_loop _ _ _ _) as [row| |]; cbn [bind]; [|done..].
  destruct (board_set _ _ _ _) as [b| |]; cbn [bind]; [|done..].
  cbv zeta. by rewrite winning_span_same.
Qed.

Lemma reset_same s : connectk4.reset s = connect4.reset s.
Proof. reflexivity. Qed.

Lemma is_draw_same s : connectk4.is_draw s = connect4.is_draw s.
Proof. reflexivity. Qed.

Lemma step_same s k : connectk4.step s k = connect4.step s k.
Proof.
  destruct k; simpl; by rewrite ?drop_same, ?reset_same, ?is_draw_same.
Qed.

Lemma run_from_same ks : ∀ s,
  connectk4.run_from s ks = connect4.run_from s ks.
Proof.
  induction ks as [|k ks IH]; intros s; [done|].
  cbn [connectk4.run_from connect4.run_from]. rewrite step_same.
  destruct (connect4.step s k) as [[v s']| |]; cbn [bind]; [|done..].
  by rewrite IH.
Qed.

Lemma run_from_total ks : ∀ s,
  inv s → ∃ vs s', connect4.run_from s ks = Ok (vs, s').
Proof.
  induction ks as [|k ks IH]; intros s Hinv; simpl; [eauto|].
  destruct (step_total s k Hinv) as (v & s1 & Hstep). rewrite Hstep. simpl.
  destruct (IH s1 (inv_step _ _ _ _ Hinv Hstep)) as (vs & s2 & ->).
  simpl. eauto.
Qed.

(** C5.  The class of [connectk4.py] and the class of [connect4.py] are
    constructed in the same state, and every sequence of [drop], [reset] and
    [is_draw] calls runs to its end in both, returns the same values from
    both, call by call, and leaves both in the same state. *)
Theorem engines_equivalent :
  connectk4.__init__ = connect4.__init__
  ∧ ∀ ks : list call, ∃ vs s,
      connectk4.run ks = Ok (vs, s) ∧ connect4.run ks = Ok (vs, s).
Proof.
  split; [reflexivity|]. intros ks.
  destruct (run_from_total ks connect4.__init__ inv_init) as (vs & s & Hrun).
  exists vs, s. split; [|done].
  unfold connectk4.run. change connectk4.__init__ with connect4.__init__.
  by rewrite run_from_same.
Qed.

(** ** Draws *)

(** C8.  [is_draw] answers [True] exactly when no winner is set and
    [move_count] equals [rows * cols]; the call leaves the state as it is,
    so any number of calls in a row return the same answer. *)
Theorem is_draw_pure_query (s : Connect4) :
  (is_draw s = true ↔ winner s = None ∧ move_count s = rows s * cols s)
  ∧ step s CallIsDraw = Ok (RetIsDraw (is_draw s), s)
  ∧ ∀ n : nat,
      run_from s (replicate n CallIsDraw)
      = Ok (replicate n (RetIsDraw (is_draw s)), s).
Proof.
  split; [|split; [done|]].
  - unfold is_draw. rewrite andb_true_iff, bool_decide_eq_true, Z.eqb_eq.
    done.
  - intros n. induction n as [|n IH]; [done|].
    simpl. by rewrite IH.
Qed.

(** C6.  In a reachable state with [move_count = rows * cols] and no
    winner, every cell holds a disc, [is_draw] answers [True], and [drop]
    rejects every integer column, in range or not, without changing the
    state. *)
Theorem full_board_rejects_every_drop s :
  reachable s → move_count s = rows s * cols s → winner s = None →
  is_draw s = true
  ∧ (∀ r c, on_grid (r, c) → disc_at (board s) r c)
  ∧ ∀ col : Z, drop s col = Ok (None, s).
Proof.
  intros Hreach Hfull Hw.
  pose proof (reachable_inv _ Hreach) as Hinv.
  pose proof (inv_well_formed _ Hinv) as Hwf.
  pose proof Hwf as (Hrows & Hcols & Hb).
  assert (∀ r c, on_grid (r, c) → disc_at (board s) r c) as Hall.
  { intros r c Hon. apply discs_full; [done| |done].
    rewrite <- (inv_count _ Hinv). by rewrite Hfull, Hrows, Hcols. }
  split; [|split; [done|]].
  - unfold is_draw. rewrite Hw, Hfull, Z.eqb_refl. done.
  - intros col. apply drop_rejected; [done|].
    destruct (decide (0 ≤ col < cols s)) as [Hcol|Hcol]; [|by right; left].
    right. right. apply Hall. rewrite Hcols in Hcol. dims. lia.
Qed.

Lemma full_board_rejects_every_drop_witness :
  is_draw drawn = true
  ∧ (∀ r c, on_grid (r, c) → disc_at (board drawn) r c)
  ∧ ∀ col : Z, drop drawn col = Ok (None, drawn).
Proof.
  apply (full_board_rejects_every_drop drawn).
  - apply state_after_reachable.
  - vm_compute. reflexivity.
  - vm_compute. reflexivity.
Defined.

(** ** [reset] restores the fresh state *)

(** C7.  From every reachable state [reset] yields the state [__init__]
    constructs: every cell empty, player 0 to move, no winner, no win line,
    no move counted.  Calling it twice in a row yields the same state as
    calling it once. *)
Theorem reset_restores_fresh_state s :
  reachable s →
  reset s = Ok __init__
  ∧ (let* s1 := reset s in reset s1) = reset s
  ∧ (∀ r c, on_grid (r, c) → empty_at (board __init__) r c)
  ∧ current __init__ = 0
  ∧ winner __init__ = None
  ∧ win_line __init__ = None
  ∧ move_count __init__ = 0.
Proof.
  intros Hreach.
  rewrite (reset_fresh s (inv_well_formed _ (reachable_inv _ Hreach))).
  split; [done|]. split; [done|]. split; [apply cell_init|done].
Qed.

Lemma reset_restores_fresh_state_witness :
  reset horizontal_four = Ok __init__
  ∧ (let* s1 := reset horizontal_four in reset s1) = reset horizontal_four
  ∧ (∀ r c, on_grid (r, c) → empty_at (board __init__) r c)
  ∧ current __init__ = 0
  ∧ winner __init__ = None
  ∧ win_line __init__ = None
  ∧ move_count __init__ = 0.
Proof.
  apply (reset_restores_fresh_state horizontal_four).
  apply state_after_reachable.
Defined.

(** ** Invariants of the reachable states *)

(** C9.  In every state reachable from construction [move_count] is the
    number of discs on the board: it holds after construction, and from a
    reachable state every call ([reset], [drop] accepted or rejected,
    [is_draw]) returns and leaves it true. *)
Theorem move_count_counts_discs s :
  reachable s →
  move_count __init__ = discs (board __init__)
  ∧ move_count s = discs (board s)
  ∧ ∀ k : call, ∃ v s',
      step s k = Ok (v, s') ∧ move_count s' = discs (board s').
Proof.
  intros Hreach. pose proof (reachable_inv _ Hreach) as Hinv.
  split; [done|]. split; [apply (inv_count _ Hinv)|].
  intros k. destruct (step_total s k Hinv) as (v & s' & Hstep).
  exists v, s'. split; [done|].
  apply (inv_count _ (inv_step _ _ _ _ Hinv Hstep)).
Qed.

Lemma move_count_counts_discs_witness :
  move_count __init__ = discs (board __init__)
  ∧ move_count three_moves = discs (board three_moves)
  ∧ ∀ k : call, ∃ v s',
      step three_moves k = Ok (v, s') ∧ move_count s' = discs (board s').
Proof.
  apply (move_count_counts_discs three_moves).
  apply state_after_reachable.
Defined.

(** C10.  In every reachable state [winner] is set exactly when [win_line]
    is set; a set [winner] is 0 or 1 and a set [win_line] is a pair of cells
    of the grid.  From a reachable state every call returns and leaves this
    true. *)
Theorem winner_and_win_line_coupled s :
  reachable s →
  ((winner s = None ↔ win_line s = None)
   ∧ (∀ w, winner s = Some w → w = 0 ∨ w = 1)
   ∧ (∀ p q, win_line s = Some (p, q) → on_grid p ∧ on_grid q))
  ∧ ∀ k : call, ∃ v s', step s k = Ok (v, s') ∧ outcome_inv s'.
Proof.
  intros Hreach. pose proof (reachable_inv _ Hreach) as Hinv.
  split; [apply (inv_outcome _ Hinv)|].
  intros k. destruct (step_total s k Hinv) as (v & s' & Hstep).
  exists v, s'. split; [done|].
  apply (inv_outcome _ (inv_step _ _ _ _ Hinv Hstep)).
Qed.

Lemma winner_and_win_line_coupled_witness :
  ((winner horizontal_four = None ↔ win_line horizontal_four = None)
   ∧ (∀ w, winner horizontal_four = Some w → w = 0 ∨ w = 1)
   ∧ (∀ p q, win_line horizontal_four = Some (p, q) → on_grid p ∧ on_grid q))
  ∧ ∀ k : call, ∃ v s', step horizontal_four k = Ok (v, s') ∧ outcome_inv s'.
Proof.
  apply (winner_and_win_line_coupled horizontal_four).
  apply state_after_reachable.
Defined.

(** ** The scenarios of the specification *)

Example vertical_win :
  connect4.run (drops [0; 1; 0; 1; 0; 1; 0])
  = Ok (map (λ r, RetDrop (Some r)) [5; 5; 4; 4; 3; 3; 2],
        {| rows := 6; cols := 7;
           board := [[-1; -1; -1; -1; -1; -1; -1];
                     [-1; -1; -1; -1; -1; -1; -1];
                     [0; -1; -1; -1; -1; -1; -1];
                     [0; 1; -1; -1; -1; -1; -1];
                     [0; 1; -1; -1; -1; -1; -1];
                     [0; 1; -1; -1; -1; -1; -1]];
           current := 0; winner := Some 0; move_count := 7;
           win_line := Some ((2, 0), (5, 0)) |}).
Proof. reflexivity. Qed.

Example horizontal_win :
  win_line horizontal_four = Some ((5, 0), (5, 3))
  ∧ winner horizontal_four = Some 0.
Proof. split; reflexivity. Qed.

Example diagonal_win :
  win_line (state_after (drops [0; 1; 1; 2; 2; 3; 2; 3; 3; 6; 3]))
  = Some ((2, 3), (5, 0)).
Proof. reflexivity. Qed.

Example draw_game_is_drawn :
  is_draw drawn = true ∧ winner drawn = None ∧ move_count drawn = 42.
Proof. repeat split; reflexivity. Qed.

(** ** Further invariants of the reachable states *)

(** Induction over the reachable states: only an accepted [drop] leads to a
    state that is neither the one before nor the fresh one. *)
Lemma reachable_drop_ind (P : Connect4 → Prop) :
  P __init__ →
  (∀ s col row res,
     reachable s → P s → winner s = None →
     0 ≤ col < COLS → 0 ≤ row < ROWS →
     empty_at (board s) row col →
     (∀ r, row < r < ROWS → disc_at (board s) r col) →
     _winning_span (placed s row col) row col = Ok res →
     P (match res with
        | Some line => won (placed s row col) line
        | None => passed (placed s row col)
        end)) →
  ∀ s, reachable s → P s.
Proof.
  intros Hinit Hdrop s Hreach.
  induction Hreach as [|s k v s' Hreach IH Hstep]; [done|].
  pose proof (inv_well_formed _ (reachable_inv _ Hreach)) as Hwf.
  destruct k as [col| |]; simpl in Hstep.
  - destruct (drop_total s col Hwf) as [Hrej | (Hw & Hcol & Htop)].
    + rewrite (drop_rejected _ _ Hwf Hrej) in Hstep. by simplify_eq/=.
    + destruct (drop_accepted s col Hwf Hw Hcol Htop)
        as (row & res & Hrow & Hempty & Hbelow & Hres & _ & Heq).
      rewrite Heq in Hstep. simplify_eq/=. by eapply Hdrop.
  - rewrite (reset_fresh s Hwf) in Hstep. by simplify_eq/=.
  - by simplify_eq.
Qed.

Lemma board_placed s row col res :
  board (match res with
         | Some line => won (placed s row col) line
         | None => passed (placed s row col)
         end)
  = grid_update (board s) row col (current s).
Proof. by destruct res. Qed.

Lemma owned_in_row_insert p row j v :
  row !! j = Some (-1) → p ≠ -1 →
  owned_in_row p (<[j := v]> row)
  = (owned_in_row p row + if decide (v = p) then 1 else 0)%nat.
Proof.
  unfold owned_in_row. revert j. induction row as [|x row IH]; intros j Hj Hp.
  - done.
  - destruct j as [|j]; simpl in *.
    + simplify_eq. rewrite (filter_cons_False _ (-1)) by (intros ?; by apply Hp).
      rewrite filter_cons. destruct (decide (v = p)); simpl; lia.
    + rewrite !filter_cons. destruct (decide (x = p)); simpl; rewrite IH by done;
        lia.
Qed.

Lemma owned_grid_update p b r c v :
  empty_at b r c → p ≠ -1 →
  owned p (grid_update b r c v) = owned p b + if decide (v = p) then 1 else 0.
Proof.
  unfold empty_at, owned, grid_update. intros Hx Hp.
  destruct (cell_nonneg _ _ _ _ Hx) as [Hr Hc].
  rewrite cell_lookup in Hx by done.
  assert (sum_list_with (owned_in_row p)
            (alter (λ row, <[Z.to_nat c := v]> row) (Z.to_nat r) b)
          = (sum_list_with (owned_in_row p) b
             + if decide (v = p) then 1 else 0)%nat) as ->.
  { revert Hx. generalize (Z.to_nat r) as i. clear Hr.
    induction b as [|row b IH]; intros i Hx; [done|].
    destruct i as [|i]; simpl in *.
    - rewrite owned_in_row_insert by done. lia.
    - specialize (IH i Hx). unfold alter in IH. lia. }
  destruct (decide (v = p)); lia.
Qed.

Lemma turn_inv s :
  reachable s →
  0 ≤ move_count s
  ∧ (winner s = None → current s = move_count s `mod` 2)
  ∧ (∀ w, winner s = Some w →
          w = current s ∧ current s = (move_count s + 1) `mod` 2)
  ∧ owned 0 (board s) = (move_count s + 1) `div` 2
  ∧ owned 1 (board s) = move_count s `div` 2.
Proof.
  revert s. apply reachable_drop_ind.
  - repeat split; try done.
  - intros s col row res Hreach (Hmc & Hturn & _ & H0 & H1) Hw Hcol Hrow
      Hempty _ _.
    specialize (Hturn Hw).
    assert (current s = 0 ∨ current s = 1) as Hcur
      by apply (inv_current _ (reachable_inv _ Hreach)).
    assert (owned 0 (grid_update (board s) row col (current s))
            = (move_count s + 1 + 1) `div` 2
            ∧ owned 1 (grid_update (board s) row col (current s))
              = (move_count s + 1) `div` 2) as [H0' H1'].
    { rewrite !owned_grid_update by done. rewrite H0, H1.
      repeat case_decide; Z.div_mod_to_equations; lia. }
    destruct res as [line|]; simpl; rewrite ?Hw.
    + split; [lia|]. split; [done|]. split; [|done].
      intros w [= <-]. split; [done|]. Z.div_mod_to_equations. lia.
    + split; [lia|]. split; [intros _; Z.div_mod_to_equations; lia|]. done.
Qed.

Lemma discs_le b : shaped b → discs b ≤ ROWS * COLS.
Proof.
  intros [Hlen Hrows]. unfold discs. dims.
  assert (sum_list_with discs_in_row b ≤ length b * 7)%nat as Hle; [|lia].
  clear Hlen. induction Hrows as [|row b Hrow Hrows IH]; simpl; [lia|].
  pose proof (length_filter (λ v, v ≠ -1) row) as H'.
  fold (discs_in_row row) in H'. lia.
Qed.

(** X1.  No disc floats: in a reachable state every cell under a disc, down
    to the bottom row, holds a disc. *)
Theorem no_floating_disc s r c r' :
  reachable s → disc_at (board s) r c → r ≤ r' < ROWS →
  disc_at (board s) r' c.
Proof.
  intros Hreach (v & Hv & Hne) Hr'.
  pose proof (reachable_inv _ Hreach) as Hinv.
  pose proof (inv_shaped _ Hinv) as Hb.
  pose proof (cell_on_grid _ _ _ _ Hb Hv) as Hon.
  destruct (cell_is_Some (board s) r' c Hb) as [v' Hv']; [dims; lia|].
  exists v'. split; [done|]. intros ->.
  pose proof (inv_gravity _ Hinv r' c Hv' r) as Hup.
  unfold empty_at in Hup. rewrite Hv in Hup. dims.
  assert (Some v = Some (-1)) as [= ->] by (apply Hup; lia). done.
Qed.

Lemma no_floating_disc_witness : disc_at (board three_moves) 5 3.
Proof.
  apply (no_floating_disc three_moves 4 3 5).
  - apply state_after_reachable.
  - exists 1. split; [vm_compute; reflexivity|lia].
  - vm_compute. split; [discriminate|reflexivity].
Defined.

Lemma cell_values s r c v :
  reachable s → cell (board s) r c = Some v → v = -1 ∨ v = 0 ∨ v = 1.
Proof.
  intros Hreach. revert r c v. revert s Hreach.
  apply (reachable_drop_ind
           (λ s, ∀ r c v, cell (board s) r c = Some v → v = -1 ∨ v = 0 ∨ v = 1)).
  - intros r c v Hv. left.
    pose proof (cell_on_grid _ _ _ _ shaped_init Hv) as Hon.
    pose proof (cell_init r c Hon) as He. unfold empty_at in He. congruence.
  - intros s col row res Hreach IH Hw Hcol Hrow Hempty _ _ r c v.
    rewrite board_placed, cell_grid_update by (by rewrite Hempty).
    case_decide; [|by apply IH]. intros [= <-].
    pose proof (inv_current _ (reachable_inv _ Hreach)). lia.
Qed.

(** X2.  In a reachable state a cell holds -1 (empty), 0 or 1. *)
Theorem cells_hold_a_player_or_nothing s r c v :
  reachable s → cell (board s) r c = Some v → v = -1 ∨ v = 0 ∨ v = 1.
Proof. apply cell_values. Qed.

Lemma cells_hold_a_player_or_nothing_witness :
  1 = -1 ∨ 1 = 0 ∨ 1 = 1.
Proof.
  apply (cells_hold_a_player_or_nothing three_moves 4 3 1).
  - apply state_after_reachable.
  - vm_compute. reflexivity.
Defined.

(** X3.  The turn follows the move count.  In a reachable state
    [move_count] is between 0 and 42; while no winner is set the player to
    move is [move_count mod 2], so player 0 moves on even counts; once a
    winner is set it is the player who made the last move, and [current]
    still names that player. *)
Theorem turn_follows_move_count s :
  reachable s →
  0 ≤ move_count s ≤ ROWS * COLS
  ∧ (winner s = None → current s = move_count s `mod` 2)
  ∧ (∀ w, winner s = Some w →
          w = current s ∧ w = (move_count s + 1) `mod` 2).
Proof.
  intros Hreach. pose proof (reachable_inv _ Hreach) as Hinv.
  destruct (turn_inv s Hreach) as (Hmc & Hturn & Hwon & _).
  split; [|split; [done|]].
  - split; [done|]. rewrite (inv_count _ Hinv).
    apply discs_le, (inv_shaped _ Hinv).
  - intros w Hw. destruct (Hwon w Hw) as [-> Hcur]. done.
Qed.

Lemma turn_follows_move_count_witness :
  0 ≤ move_count horizontal_four ≤ ROWS * COLS
  ∧ (winner horizontal_four = None →
     current horizontal_four = move_count horizontal_four `mod` 2)
  ∧ (∀ w, winner horizontal_four = Some w →
          w = current horizontal_four
          ∧ w = (move_count horizontal_four + 1) `mod` 2).
Proof.
  apply (turn_follows_move_count horizontal_four).
  apply state_after_reachable.
Defined.

(** X4.  The discs are shared evenly: in a reachable state player 0 has
    [(move_count + 1) // 2] discs on the board and player 1 has
    [move_count // 2], so player 0 has as many as player 1 or one more. *)
Theorem discs_shared_evenly s :
  reachable s →
  owned 0 (board s) = (move_count s + 1) `div` 2
  ∧ owned 1 (board s) = move_count s `div` 2
  ∧ 0 ≤ owned 0 (board s) - owned 1 (board s) ≤ 1.
Proof.
  intros Hreach. destruct (turn_inv s Hreach) as (Hmc & _ & _ & H0 & H1).
  split; [done|]. split; [done|]. rewrite H0, H1.
  Z.div_mod_to_equations. lia.
Qed.

Lemma discs_shared_evenly_witness :
  owned 0 (board three_moves) = (move_count three_moves + 1) `div` 2
  ∧ owned 1 (board three_moves) = move_count three_moves `div` 2
  ∧ 0 ≤ owned 0 (board three_moves) - owned 1 (board three_moves) ≤ 1.
Proof.
  apply (discs_shared_evenly three_moves).
  apply state_after_reachable.
Defined.

(** ** The winner and the lines of four on the board *)

Lemma placed_first_line s row col res :
  reachable s → empty_at (board s) row col →
  _winning_span (placed s row col) row col = Ok res →
  first_line (grid_update (board s) row col (current s)) (current s)
    row col directions res.
Proof.
  intros Hreach Hempty Hres.
  pose proof (reachable_inv _ Hreach) as Hinv.
  destruct (winning_span_spec (placed s row col) row col (current s))
    as (res' & Hres' & Hspec).
  - apply well_formed_placed, inv_well_formed, Hinv.
  - simpl. rewrite cell_grid_update by (by rewrite Hempty).
    by rewrite decide_True.
  - pose proof (inv_current _ Hinv). lia.
  - rewrite Hres in Hres'. by simplify_eq.
Qed.

Lemma four_through b p r c d row col j f k :
  four_from b p r c d → 0 ≤ j ≤ 3 →
  r + j * d.1 = row → c + j * d.2 = col →
  run_length b p row col d.1 d.2 f →
  run_length b p row col (- d.1) (- d.2) k →
  4 ≤ 1 + f + k.
Proof.
  intros Hfour Hj <- <- (Hf & _ & Hstop_f) (Hk & _ & Hstop_k).
  assert (3 - j ≤ f) as Hf'.
  { destruct (decide (3 - j ≤ f)) as [|Hlt]; [done|]. destruct Hstop_f.
    replace (r + j * d.1 + (f + 1) * d.1) with (r + (j + f + 1) * d.1) by lia.
    replace (c + j * d.2 + (f + 1) * d.2) with (c + (j + f + 1) * d.2) by lia.
    apply Hfour. lia. }
  assert (j ≤ k) as Hk'.
  { destruct (decide (j ≤ k)) as [|Hlt]; [done|]. destruct Hstop_k.
    replace (r + j * d.1 + (k + 1) * - d.1) with (r + (j - k - 1) * d.1) by lia.
    replace (c + j * d.2 + (k + 1) * - d.2) with (c + (j - k - 1) * d.2) by lia.
    apply Hfour. lia. }
  lia.
Qed.

(** X5.  A winner has a line.  In a reachable state with [winner = w],
    [win_line] is a pair of cells, the second [n >= 3] steps from the first
    along one of the four directions, and every cell from the first to the
    second holds a disc of [w]. *)
Theorem winner_has_a_line s w :
  reachable s → winner s = Some w →
  ∃ d n r c,
    d ∈ directions ∧ 3 ≤ n
    ∧ win_line s = Some ((r, c), (r + n * d.1, c + n * d.2))
    ∧ ∀ i, 0 ≤ i ≤ n → cell (board s) (r + i * d.1) (c + i * d.2) = Some w.
Proof.
  intros Hreach. revert w. revert s Hreach.
  apply (reachable_drop_ind
           (λ s, ∀ w, winner s = Some w →
              ∃ d n r c,
                d ∈ directions ∧ 3 ≤ n
                ∧ win_line s = Some ((r, c), (r + n * d.1, c + n * d.2))
                ∧ ∀ i, 0 ≤ i ≤ n →
                       cell (board s) (r + i * d.1) (c + i * d.2) = Some w)).
  - by intros w [=].
  - intros s col row res Hreach _ Hw Hcol Hrow Hempty _ Hres w.
    pose proof (placed_first_line s row col res Hreach Hempty Hres) as Hspec.
    destruct res as [line|]; simpl; [|by rewrite Hw].
    intros [= <-].
    destruct Hspec as [[? _] | (pre & d & post & f & k & Hsplit
                                & _ & [Hf Hk] & Hfour & Heq)]; [done|].
    simplify_eq.
    exists d, (f + k), (row - k * d.1), (col - k * d.2).
    split; [rewrite Hsplit; apply elem_of_app; right; by left|].
    split; [lia|]. split; [do 3 f_equal; lia|].
    destruct Hf as (Hf0 & Hf & _), Hk as (Hk0 & Hk & _).
    intros i Hi. destruct (Z.lt_trichotomy i k) as [Hlt | [-> | Hgt]].
    + replace (row - k * d.1 + i * d.1) with (row + (k - i) * - d.1) by lia.
      replace (col - k * d.2 + i * d.2) with (col + (k - i) * - d.2) by lia.
      apply Hk. lia.
    + replace (row - k * d.1 + k * d.1) with row by lia.
      replace (col - k * d.2 + k * d.2) with col by lia.
      rewrite cell_grid_update by (by rewrite Hempty). by rewrite decide_True.
    + replace (row - k * d.1 + i * d.1) with (row + (i - k) * d.1) by lia.
      replace (col - k * d.2 + i * d.2) with (col + (i - k) * d.2) by lia.
      apply Hf. lia.
Qed.

Lemma winner_has_a_line_witness :
  ∃ d n r c,
    d ∈ directions ∧ 3 ≤ n
    ∧ win_line horizontal_four = Some ((r, c), (r + n * d.1, c + n * d.2))
    ∧ ∀ i, 0 ≤ i ≤ n →
           cell (board horizontal_four) (r + i * d.1) (c + i * d.2) = Some 0.
Proof.
  apply (winner_has_a_line horizontal_four 0).
  - apply state_after_reachable.
  - vm_compute. reflexivity.
Defined.

(** X6.  No win is missed.  In a reachable state with no winner set there
    are no four cells in a row, along any of the four directions, that hold
    discs of the same player. *)
Theorem no_winner_no_four s p d r c :
  reachable s → winner s = None → p ≠ -1 → d ∈ directions →
  ¬ four_from (board s) p r c d.
Proof.
  intros Hreach. revert p d r c. revert s Hreach.
  apply (reachable_drop_ind
           (λ s, ∀ p d r c, winner s = None → p ≠ -1 → d ∈ directions →
                            ¬ four_from (board s) p r c d)).
  - intros p d r c _ Hp _ Hfour. specialize (Hfour 0).
    rewrite !Z.mul_0_l, !Z.add_0_r in Hfour.
    assert (cell (board __init__) r c = Some p) as Hcell by (apply Hfour; lia).
    pose proof (cell_on_grid _ _ _ _ shaped_init Hcell) as Hon.
    pose proof (cell_init r c Hon) as He. unfold empty_at in He. congruence.
  - intros s col row res Hreach IH Hw Hcol Hrow Hempty _ Hres p d r c.
    pose proof (placed_first_line s row col res Hreach Hempty Hres) as Hspec.
    rewrite board_placed. destruct res as [line|]; simpl; [done|].
    intros _ Hp Hd Hfour.
    assert ((∃ j, 0 ≤ j ≤ 3 ∧ r + j * d.1 = row ∧ c + j * d.2 = col)
            ∨ (∀ i, 0 ≤ i ≤ 3 → ¬ (r + i * d.1 = row ∧ c + i * d.2 = col)))
      as [(j & Hj & Hjr & Hjc) | Hnone].
    { destruct (decide (r + 0 * d.1 = row ∧ c + 0 * d.2 = col));
        [left; exists 0; split; [lia|done]|].
      destruct (decide (r + 1 * d.1 = row ∧ c + 1 * d.2 = col));
        [left; exists 1; split; [lia|done]|].
      destruct (decide (r + 2 * d.1 = row ∧ c + 2 * d.2 = col));
        [left; exists 2; split; [lia|done]|].
      destruct (decide (r + 3 * d.1 = row ∧ c + 3 * d.2 = col));
        [left; exists 3; split; [lia|done]|].
      right. intros i Hi.
      assert (i = 0 ∨ i = 1 ∨ i = 2 ∨ i = 3) as [-> | [-> | [-> | ->]]] by lia;
        done. }
    + assert (p = current s) as ->.
      { specialize (Hfour j Hj). rewrite Hjr, Hjc in Hfour.
        rewrite cell_grid_update in Hfour by (by rewrite Hempty).
        rewrite decide_True in Hfour by done. by simplify_eq. }
      destruct Hspec as [[_ Hall] | (? & ? & ? & ? & ? & _ & _ & _ & _ & ?)];
        [|done].
      destruct (Hall d Hd) as (f & k & [Hf Hk] & Hshort).
      pose proof (four_through _ _ _ _ _ _ _ j f k Hfour Hj Hjr Hjc Hf Hk).
      lia.
    + apply (IH p d r c Hw Hp Hd). intros i Hi. specialize (Hfour i Hi).
      rewrite cell_grid_update in Hfour by (by rewrite Hempty).
      rewrite decide_False in Hfour by (by apply Hnone). done.
Qed.

Lemma no_winner_no_four_witness :
  ¬ four_from (board drawn) 1 2 0 (1, 1).
Proof.
  apply (no_winner_no_four drawn 1 (1, 1) 2 0).
  - apply state_after_reachable.
  - vm_compute. reflexivity.
  - lia.
  - unfold directions. right. right. left.
Defined.

(** ** What [drop] answers *)

(** X7.  On a reachable state [drop] raises for no integer column.  It
    answers [None] exactly when a winner is set, the column is outside
    [0, cols) or the column's top cell holds a disc; a [None] answer leaves
    the state as it was, and any other answer is a row of the grid. *)
Theorem drop_answers s col :
  reachable s →
  ∃ r s',
    drop s col = Ok (r, s')
    ∧ (r = None ↔ rejected s col)
    ∧ (r = None → s' = s)
    ∧ (∀ row, r = Some row → 0 ≤ row < ROWS).
Proof.
  intros Hreach.
  pose proof (inv_well_formed _ (reachable_inv _ Hreach)) as Hwf.
  destruct (drop_total s col Hwf) as [Hrej | (Hw & Hcol & Htop)].
  - exists None, s. rewrite (drop_rejected _ _ Hwf Hrej). by repeat split.
  - destruct (drop_accepted s col Hwf Hw Hcol Htop)
      as (row & res & Hrow & _ & _ & _ & _ & ->).
    eexists (Some row), _. split; [done|]. split; [|split; [done|]].
    + split; [done|]. intros [Hrej | [Hrej | (v & Hv & Hne)]].
      * done.
      * destruct Hwf as (_ & Hcols & _). rewrite Hcols in Hrej. done.
      * unfold empty_at in Htop. congruence.
    + by intros ? [= <-].
Qed.

Lemma over_rejects s col :
  reachable s → winner s ≠ None ∨ is_draw s = true →
  drop s col = Ok (None, s).
Proof.
  intros Hreach Hover. pose proof (reachable_inv _ Hreach) as Hinv.
  pose proof (inv_well_formed _ Hinv) as Hwf.
  apply drop_rejected; [done|].
  destruct Hover as [Hw | Hdraw]; [by left|].
  unfold is_draw in Hdraw. apply andb_true_iff in Hdraw as [_ Hfull].
  apply Z.eqb_eq in Hfull. destruct Hwf as (Hrows & Hcols & Hb).
  destruct (decide (0 ≤ col < cols s)) as [Hcol|Hcol]; [|by right; left].
  right. right. apply discs_full; [done| |rewrite Hcols in Hcol; dims; lia].
  rewrite <- (inv_count _ Hinv). by rewrite Hfull, Hrows, Hcols.
Qed.

(** X8.  A finished game stays as it is until [reset].  From a reachable
    state with a winner, or with a full board, every sequence of [drop] and
    [is_draw] calls answers [None] to each [drop], the same to each
    [is_draw], and ends in the state it started from. *)
Theorem finished_game_ignores_calls s ks :
  reachable s → winner s ≠ None ∨ is_draw s = true → no_reset ks →
  run_from s ks = Ok (map (answer_when_over s) ks, s).
Proof.
  intros Hreach Hover Hks. induction Hks as [|k ks Hk Hks IH]; [done|].
  cbn [run_from map]. destruct k as [col| |]; [|done|].
  - cbn [step]. rewrite (over_rejects s col Hreach Hover). cbn [bind].
    by rewrite IH.
  - cbn [step bind]. by rewrite IH.
Qed.

Lemma finished_game_ignores_calls_witness :
  run_from horizontal_four [CallDrop 4; CallIsDraw; CallDrop 0]
  = Ok (map (answer_when_over horizontal_four)
          [CallDrop 4; CallIsDraw; CallDrop 0],
        horizontal_four).
Proof.
  apply (finished_game_ignores_calls horizontal_four).
  - apply state_after_reachable.
  - left. by vm_compute.
  - repeat constructor; discriminate.
Defined.

Lemma drop_answers_witness :
  ∃ r s',
    drop full_column 0 = Ok (r, s')
    ∧ (r = None ↔ rejected full_column 0)
    ∧ (r = None → s' = full_column)
    ∧ (∀ row, r = Some row → 0 ≤ row < ROWS).
Proof.
  apply (drop_answers full_column 0).
  apply state_after_reachable.
Defined.

(** ** The window of [connectk4.py] *)

Lemma elem_of_range n x : x ∈ range n → 0 ≤ x < n.
Proof.
  unfold range. intros (i & -> & Hi)%list_elem_of_fmap.
  apply elem_of_seq in Hi. lia.
Qed.

Lemma for_each_append {A} (xs : list Z) (body : Z → list A → result (list A))
    (g : Z → list A) :
  (∀ x acc, x ∈ xs → body x acc = Ok (acc ++ g x)) →
  ∀ acc, for_each xs body acc = Ok (acc ++ (xs ≫= g)).
Proof.
  induction xs as [|x xs IH]; intros Hbody acc; cbn [for_each].
  - simpl. by rewrite app_nil_r.
  - rewrite Hbody by left. cbn [bind].
    rewrite IH by (intros; apply Hbody; by right).
    by rewrite bind_cons, app_assoc.
Qed.

Lemma redraw_drawing a :
  reachable (App.game a) →
  App.redraw a
  = Ok {| App.game := App.game a; App.hover_col := App.hover_col a;
          App.status := App.status a;
          App.canvas := drawing (App.game a) (App.hover_col a) |}.
Proof.
  intros Hreach. pose proof (reachable_inv _ Hreach) as Hinv.
  pose proof (inv_shaped _ Hinv) as Hb.
  unfold App.redraw. cbv zeta.
  rewrite (for_each_append _ _
             (λ r, (λ c, cell_oval r c
                           (disc_colour (default (-1)
                                           (cell (board (App.game a)) r c))))
                     <$> range App.COLS)).
  - cbn [bind]. do 2 f_equal.
    unfold drawing, hover_items, line_items, oval_items.
    change (connectk4.is_draw (App.game a))
      with (connect4.is_draw (App.game a)).
    destruct (win_line (App.game a)) as [[[r0 c0] [r1 c1]]|];
      destruct (App.hover_col a);
      try destruct (bool_decide _ && negb _);
      cbn [app]; rewrite ?app_nil_r, <- ?app_assoc; reflexivity.
  - intros r acc Hr%elem_of_range.
    rewrite (for_each_append _ _
               (λ c, [cell_oval r c
                        (disc_colour (default (-1)
                                        (cell (board (App.game a)) r c)))])).
    + reflexivity.
    + intros c acc' Hc%elem_of_range.
      destruct (cell_is_Some (board (App.game a)) r c Hb) as [v Hv];
        [done|].
      rewrite board_get_cell, Hv by lia. cbn [bind default].
      destruct (cell_values _ _ _ _ Hreach Hv) as [-> | [-> | ->]]; done.
Qed.

Lemma update_status_text a :
  reachable (App.game a) →
  App.update_status a
  = Ok {| App.game := App.game a; App.hover_col := App.hover_col a;
          App.status := status_text (App.game a);
          App.canvas := App.canvas a |}.
Proof.
  intros Hreach. pose proof (reachable_inv _ Hreach) as Hinv.
  unfold App.update_status, status_text.
  change (connectk4.is_draw (App.game a)) with (connect4.is_draw (App.game a)).
  destruct (winner (App.game a)) as [w|] eqn:Hw.
  - destruct (inv_outcome _ Hinv) as (_ & Hwin & _).
    by destruct (Hwin w Hw) as [-> | ->].
  - destruct (connect4.is_draw (App.game a)); [done|].
    by destruct (inv_current _ Hinv) as [-> | ->].
Qed.

Lemma drop_reachable s col :
  reachable s →
  ∃ r s', connect4.drop s col = Ok (r, s') ∧ reachable s'
          ∧ (r = None → s' = s).
Proof.
  intros Hreach.
  destruct (step_total s (CallDrop col) (reachable_inv _ Hreach))
    as (v & s' & Hstep).
  pose proof (reach_step _ _ _ _ Hreach Hstep) as Hreach'.
  simpl in Hstep. destruct (drop s col) as [[r s'']| |] eqn:Hdrop;
    simplify_eq/=.
  exists r, s'. split; [done|]. split; [done|]. intros ->.
  pose proof (inv_well_formed _ (reachable_inv _ Hreach)) as Hwf.
  destruct (drop_total s col Hwf) as [Hrej | (Hw & Hcol & Htop)].
  - rewrite (drop_rejected _ _ Hwf Hrej) in Hdrop. by simplify_eq.
  - destruct (drop_accepted s col Hwf Hw Hcol Htop)
      as (row & res & _ & _ & _ & _ & _ & Heq).
    rewrite Heq in Hdrop. by simplify_eq.
Qed.

Lemma init_window : App.__init__ = Ok initial_window.
Proof. reflexivity. Qed.

Lemma app_inv_initial : app_inv initial_window.
Proof.
  split; simpl; [apply reach_init|by intros h [=]|done|done].
Qed.

Lemma app_inv_redrawn g hover st cv :
  reachable g → (∀ h, hover = Some h → 0 ≤ h < App.COLS) →
  ∃ a',
    (let* self := App.redraw {| App.game := g; App.hover_col := hover;
                                App.status := st; App.canvas := cv |} in
     App.update_status self) = Ok a'
    ∧ app_inv a' ∧ App.game a' = g ∧ App.hover_col a' = hover.
Proof.
  intros Hreach Hhover. rewrite redraw_drawing by done. cbn [bind].
  rewrite update_status_text by done. eexists. split; [done|]. simpl.
  split; [by split|done].
Qed.

Lemma is_over_spec g :
  bool_decide (winner g ≠ None) || connectk4.is_draw g = true ↔ game_over g.
Proof.
  unfold game_over. rewrite orb_true_iff, bool_decide_eq_true. done.
Qed.

Lemma on_click_spec a x :
  app_inv a →
  ∃ r a',
    App.on_click a x = Ok a' ∧ app_inv a'
    ∧ connect4.drop (App.game a) (x `div` App.CELL) = Ok (r, App.game a')
    ∧ App.hover_col a' = App.hover_col a
    ∧ (r = None → a' = a).
Proof.
  intros Hinv. pose proof Hinv as [Hreach Hhover Hcanvas Hstatus].
  unfold App.on_click.
  destruct (bool_decide (winner (App.game a) ≠ None)
            || connectk4.is_draw (App.game a)) eqn:Hover.
  - apply is_over_spec in Hover. exists None, a.
    split; [done|]. split; [done|].
    split; [by apply over_rejects|done].
  - rewrite drop_same.
    destruct (drop_reachable (App.game a) (x `div` App.CELL) Hreach)
      as (r & g' & Hdrop & Hreach' & Hnone).
    rewrite Hdrop. cbn [bind]. destruct r as [row|].
    + rewrite bool_decide_eq_true_2 by done.
      destruct (app_inv_redrawn g' (App.hover_col a) (App.status a)
                  (App.canvas a) Hreach' Hhover)
        as (a' & -> & Hinv' & Hg & Hh).
      exists (Some row), a'. rewrite Hg.
      split; [done|]. split; [done|]. split; [done|]. split; [done|].
      by intros [=].
    + rewrite bool_decide_eq_false_2 by (by intros []).
      specialize (Hnone eq_refl). subst g'. exists None, a.
      split; [by destruct a|]. split; [done|]. split; [done|]. done.
Qed.

Lemma on_motion_spec a x :
  app_inv a →
  ∃ a',
    App.on_motion a x = Ok a' ∧ app_inv a'
    ∧ App.game a' = App.game a ∧ App.status a' = App.status a
    ∧ App.hover_col a'
      = if decide (0 ≤ x < App.COLS * App.CELL)
        then Some (x `div` App.CELL) else None.
Proof.
  intros [Hreach Hhover Hcanvas Hstatus]. unfold App.on_motion. cbv zeta.
  assert ((if (0 <=? x `div` App.CELL) && (x `div` App.CELL <? App.COLS)
           then Some (x `div` App.CELL) else None)
          = if decide (0 ≤ x < App.COLS * App.CELL)
            then Some (x `div` App.CELL) else None) as ->.
  { unfold App.CELL, App.COLS.
    destruct ((0 <=? x `div` 80) && (x `div` 80 <? 7)) eqn:E;
      case_decide; try done; exfalso;
      Z.div_mod_to_equations; lia. }
  assert (∀ h, (if decide (0 ≤ x < App.COLS * App.CELL)
                then Some (x `div` App.CELL) else None) = Some h →
               0 ≤ h < App.COLS) as Hnew.
  { intros h. case_decide; [|done]. intros [= <-].
    unfold App.CELL, App.COLS in *. Z.div_mod_to_equations. lia. }
  case_bool_decide as Hch.
  - rewrite redraw_drawing by done. eexists. split; [done|]. simpl.
    split; [by split|done].
  - exists a.
    split; [done|]. split; [done|]. split; [done|]. split; [done|]. done.
Qed.

Lemma new_game_spec a :
  app_inv a →
  ∃ a', App.new_game a = Ok a' ∧ app_inv a'
        ∧ App.game a' = connect4.__init__ ∧ App.hover_col a' = None.
Proof.
  intros [Hreach Hhover Hcanvas Hstatus]. unfold App.new_game.
  change (connectk4.reset (App.game a)) with (connect4.reset (App.game a)).
  rewrite (reset_fresh _ (inv_well_formed _ (reachable_inv _ Hreach))).
  cbn [bind].
  destruct (app_inv_redrawn connect4.__init__ None (App.status a)
              (App.canvas a) reach_init) as (a' & -> & Hinv' & Hg & Hh);
    [by intros h [=]|].
  by exists a'.
Qed.

Lemma handle_spec a e :
  app_inv a → ∃ a', App.handle a e = Ok a' ∧ app_inv a'.
Proof.
  intros Hinv. destruct e as [x|x|]; simpl.
  - destruct (on_click_spec a x Hinv) as (r & a' & ? & ? & _). eauto.
  - destruct (on_motion_spec a x Hinv) as (a' & ? & ? & _). eauto.
  - destruct (new_game_spec a Hinv) as (a' & ? & ? & _). eauto.
Qed.

Lemma app_reachable_inv a : App.reachable a → app_inv a.
Proof.
  induction 1 as [a Hinit|a e a' _ IH Hhandle].
  - rewrite init_window in Hinit. simplify_eq. apply app_inv_initial.
  - destruct (handle_spec a e IH) as (a'' & Heq & Hinv').
    rewrite Heq in Hhandle. by simplify_eq.
Qed.

Lemma events_from_reachable es : ∀ a a',
  App.reachable a → events_from a es = Ok a' → App.reachable a'.
Proof.
  induction es as [|e es IH]; intros a a' Ha Hrun; simpl in Hrun.
  - by simplify_eq.
  - destruct (App.handle a e) as [a1| |] eqn:He; simplify_eq/=.
    eapply IH; [|done]. by eapply App.reach_event.
Qed.

Lemma window_after_reachable es : App.reachable (window_after es).
Proof.
  assert (App.reachable initial_window) as Hinit
    by (apply App.reach_init, init_window).
  unfold window_after.
  destruct (events_from initial_window es) as [a| |] eqn:Hrun; try done.
  by eapply events_from_reachable.
Qed.

Lemma elem_of_range_2 n x : 0 ≤ x < n → x ∈ range n.
Proof.
  intros Hx. unfold range. apply list_elem_of_fmap.
  exists (Z.to_nat x). split; [lia|]. apply elem_of_seq. lia.
Qed.

(** X9.  No event makes the window raise.  In a window that was created
    and then received clicks, pointer motions and New Game presses, every
    further event is handled to its end; the game of the window is a
    reachable state of the engine and the hovered column is [None] or a
    column of the board. *)
Theorem window_events_never_raise a e :
  App.reachable a →
  ∃ a',
    App.handle a e = Ok a'
    ∧ reachable (App.game a')
    ∧ ∀ h, App.hover_col a' = Some h → 0 ≤ h < App.COLS.
Proof.
  intros Ha.
  destruct (handle_spec a e (app_reachable_inv a Ha)) as (a' & Heq & Hinv).
  exists a'. split; [done|]. split; [apply Hinv|apply Hinv].
Qed.

Lemma window_events_never_raise_witness :
  ∃ a',
    App.handle hovering_window (App.Click (-5)) = Ok a'
    ∧ reachable (App.game a')
    ∧ ∀ h, App.hover_col a' = Some h → 0 ≤ h < App.COLS.
Proof.
  apply (window_events_never_raise hovering_window (App.Click (-5))).
  apply window_after_reachable.
Defined.

(** X10.  The display is never stale.  In every reachable window the canvas
    and the status label already show the current game and hovered column:
    calling [redraw] or [update_status] again changes nothing. *)
Theorem display_is_current a :
  App.reachable a → App.redraw a = Ok a ∧ App.update_status a = Ok a.
Proof.
  intros Ha. destruct (app_reachable_inv a Ha) as [Hg Hh Hc Hs]. split.
  - rewrite redraw_drawing by done. rewrite <- Hc. by destruct a.
  - rewrite update_status_text by done. rewrite <- Hs. by destruct a.
Qed.

Lemma display_is_current_witness :
  App.redraw won_window = Ok won_window
  ∧ App.update_status won_window = Ok won_window.
Proof.
  apply (display_is_current won_window). apply window_after_reachable.
Defined.

(** X11.  What the canvas shows.  In every reachable window the canvas
    holds, in this order: the hover rectangle over column [hover_col] if one
    is hovered and the game is not over; 42 ovals, one per cell, row by row,
    each 12 pixels inside its 80-pixel square and filled with the colour of
    the cell's owner; the win line between the centres of the two cells of
    [win_line] if a winner is set, and nothing else. *)
Theorem canvas_shows_the_board a :
  App.reachable a →
  App.canvas a
  = hover_items (App.game a) (App.hover_col a)
    ++ oval_items (board (App.game a)) ++ line_items (App.game a)
  ∧ length (oval_items (board (App.game a))) = 42%nat
  ∧ ∀ r c v,
      cell (board (App.game a)) r c = Some v →
      cell_oval r c (disc_colour v) ∈ App.canvas a.
Proof.
  intros Ha. destruct (app_reachable_inv a Ha) as [Hg Hh Hc Hs].
  split; [done|]. split; [reflexivity|].
  intros r c v Hv. rewrite Hc. unfold drawing.
  apply elem_of_app. right. apply elem_of_app. left.
  pose proof (cell_on_grid _ _ _ _
                (inv_shaped _ (reachable_inv _ Hg)) Hv) as [Hr Hcol].
  unfold oval_items. apply list_elem_of_bind. exists r.
  split; [|by apply elem_of_range_2].
  apply list_elem_of_fmap. exists c.
  split; [by rewrite Hv|by apply elem_of_range_2].
Qed.

Lemma canvas_shows_the_board_witness :
  App.canvas won_window
  = hover_items (App.game won_window) (App.hover_col won_window)
    ++ oval_items (board (App.game won_window))
    ++ line_items (App.game won_window)
  ∧ length (oval_items (board (App.game won_window))) = 42%nat
  ∧ ∀ r c v,
      cell (board (App.game won_window)) r c = Some v →
      cell_oval r c (disc_colour v) ∈ App.canvas won_window.
Proof.
  apply (canvas_shows_the_board won_window). apply window_after_reachable.
Defined.

(** X12.  A click plays the column under the pointer.  In a reachable
    window a click at [x] with [c * CELL <= x < (c + 1) * CELL] does to the
    game what [drop(c)] does, and leaves the hovered column alone; if that
    [drop] answers [None] (game over, column full, [c] off the board) the
    whole window stays as it is. *)
Theorem click_plays_the_column_under_the_pointer a x c :
  App.reachable a → c * App.CELL ≤ x < (c + 1) * App.CELL →
  ∃ r a',
    App.on_click a x = Ok a'
    ∧ connect4.drop (App.game a) c = Ok (r, App.game a')
    ∧ App.hover_col a' = App.hover_col a
    ∧ (r = None → a' = a).
Proof.
  intros Ha Hx.
  destruct (on_click_spec a x (app_reachable_inv a Ha))
    as (r & a' & Hclick & _ & Hdrop & Hhover & Hnone).
  replace (x `div` App.CELL) with c in Hdrop
    by (unfold App.CELL in *; Z.div_mod_to_equations; lia).
  by exists r, a'.
Qed.

Lemma click_plays_the_column_under_the_pointer_witness :
  ∃ r a',
    App.on_click hovering_window 95 = Ok a'
    ∧ connect4.drop (App.game hovering_window) 1 = Ok (r, App.game a')
    ∧ App.hover_col a' = App.hover_col hovering_window
    ∧ (r = None → a' = hovering_window).
Proof.
  apply (click_plays_the_column_under_the_pointer hovering_window 95 1).
  - apply window_after_reachable.
  - vm_compute. split; [discriminate|reflexivity].
Defined.

(** X13.  A click left or right of the board is ignored: with [x < 0] or
    [x >= COLS * CELL] the window stays exactly as it is. *)
Theorem click_off_the_board_is_ignored a x :
  App.reachable a → x < 0 ∨ App.COLS * App.CELL ≤ x →
  App.on_click a x = Ok a.
Proof.
  intros Ha Hx. pose proof (app_reachable_inv a Ha) as Hinv.
  destruct (on_click_spec a x Hinv)
    as (r & a' & Hclick & _ & Hdrop & _ & Hnone).
  rewrite Hclick. f_equal. apply Hnone.
  pose proof (inv_well_formed _ (reachable_inv _ (app_game _ Hinv))) as Hwf.
  rewrite (drop_rejected _ (x `div` App.CELL) Hwf) in Hdrop;
    [by simplify_eq|].
  right. left. destruct Hwf as (_ & -> & _).
  unfold App.CELL, App.COLS, COLS in *. Z.div_mod_to_equations. lia.
Qed.

Lemma click_off_the_board_is_ignored_witness :
  App.on_click hovering_window (-1) = Ok hovering_window.
Proof.
  apply (click_off_the_board_is_ignored hovering_window (-1)).
  - apply window_after_reachable.
  - left. lia.
Defined.

(** X14.  The hover follows the pointer.  After a pointer motion at [x] the
    hovered column is [x // CELL] if [0 <= x < COLS * CELL], the column a
    click at [x] would play, and [None] otherwise; the game and the status
    label are untouched. *)
Theorem hover_follows_the_pointer a x :
  App.reachable a →
  ∃ a',
    App.on_motion a x = Ok a'
    ∧ App.game a' = App.game a
    ∧ App.status a' = App.status a
    ∧ App.hover_col a'
      = if decide (0 ≤ x < App.COLS * App.CELL)
        then Some (x `div` App.CELL) else None.
Proof.
  intros Ha.
  destruct (on_motion_spec a x (app_reachable_inv a Ha))
    as (a' & Hmotion & _ & Hg & Hs & Hh).
  by exists a'.
Qed.

Lemma hover_follows_the_pointer_witness :
  ∃ a',
    App.on_motion won_window 561 = Ok a'
    ∧ App.game a' = App.game won_window
    ∧ App.status a' = App.status won_window
    ∧ App.hover_col a'
      = if decide (0 ≤ 561 < App.COLS * App.CELL)
        then Some (561 `div` App.CELL) else None.
Proof.
  apply (hover_follows_the_pointer won_window 561).
  apply window_after_reachable.
Defined.

(** X15.  New Game starts over.  From every reachable window [new_game]
    leads to the window [__init__] creates: fresh game, no hovered column,
    the empty board on the canvas and Red's turn in the label. *)
Theorem new_game_starts_over a :
  App.reachable a → App.new_game a = App.__init__.
Proof.
  intros Ha.
  destruct (new_game_spec a (app_reachable_inv a Ha))
    as (a' & Hnew & [_ _ Hc Hs] & Hg & Hh).
  rewrite Hnew, init_window. f_equal.
  destruct a'. simpl in *. by subst.
Qed.

Lemma new_game_starts_over_witness :
  App.new_game won_window = App.__init__.
Proof.
  apply (new_game_starts_over won_window). apply window_after_reachable.
Defined.

(** ** The console of [connect4.py] *)

Lemma map_each_fmap {A} (xs : list Z) (f : Z → result A) (h : Z → A) :
  (∀ x, x ∈ xs → f x = Ok (h x)) → map_each xs f = Ok (h <$> xs).
Proof.
  induction xs as [|x xs IH]; intros Hf; [done|].
  cbn [map_each]. rewrite Hf by left. cbn [bind].
  rewrite IH by (intros; apply Hf; by right). done.
Qed.

Lemma board_as_cells b :
  shaped b →
  b = (λ r, (λ c, default (-1) (cell b r c)) <$> range COLS) <$> range ROWS.
Proof.
  intros [Hlen Hrows]. dims.
  destruct (list_of_length_6 b Hlen) as (r0 & r1 & r2 & r3 & r4 & r5 & ->).
  repeat match goal with
         | H : Forall _ (_ :: _) |- _ => apply Forall_cons in H as [? H]
         end.
  repeat match goal with
         | H : length ?r = 7%nat |- _ =>
             apply list_of_length_7 in H as (? & ? & ? & ? & ? & ? & ? & ->)
         end.
  reflexivity.
Qed.

Lemma render_board_text g :
  reachable g → console.render_board g = Ok (board_text (board g)).
Proof.
  intros Hreach. pose proof (reachable_inv _ Hreach) as Hinv.
  pose proof (inv_shaped _ Hinv) as Hb.
  unfold console.render_board.
  change (map_each (range_from 1 (console.COLS + 1)) (λ i, Ok (str_of_int i)))
    with (Ok ["1"; "2"; "3"; "4"; "5"; "6"; "7"] : result (list string)).
  cbn [bind]. cbv zeta.
  rewrite (for_each_append _ _
             (λ r, [" " +:+ join " "
                      ((λ c, symbol (default (-1) (cell (board g) r c)))
                         <$> range console.COLS)])).
  - cbn [bind]. f_equal. unfold board_text.
    replace (line_text <$> board g)
      with (line_text <$>
              ((λ r, (λ c, default (-1) (cell (board g) r c)) <$> range COLS)
                 <$> range ROWS))
      by (f_equal; symmetry; by apply board_as_cells).
    reflexivity.
  - intros r acc Hr%elem_of_range.
    rewrite (map_each_fmap _ _
               (λ c, symbol (default (-1) (cell (board g) r c)))); [done|].
    intros c Hc%elem_of_range. unfold console.cell_char.
    destruct (cell_is_Some (board g) r c Hb) as [v Hv]; [done|].
    rewrite board_get_cell, Hv by lia. cbn [bind default].
    destruct (cell_values _ _ _ _ Hreach Hv) as [-> | [-> | ->]]; done.
Qed.

Lemma string_app_assoc (s1 s2 s3 : string) :
  (s1 +:+ s2) +:+ s3 = s1 +:+ s2 +:+ s3.
Proof.
  induction s1 as [|a s1 IH]; [done|].
  change (String a ((s1 +:+ s2) +:+ s3) = String a (s1 +:+ s2 +:+ s3)).
  by rewrite IH.
Qed.

Lemma string_app_inv_head (p s s' : string) : p +:+ s = p +:+ s' → s = s'.
Proof.
  induction p as [|a p IH]; [done|].
  change (String a (p +:+ s) = String a (p +:+ s') → s = s').
  intros [= H]. by apply IH.
Qed.

Lemma string_app_nil_r (s : string) : s +:+ "" = s.
Proof.
  induction s as [|a s IH]; [done|].
  change (String a (s +:+ "") = String a s). by rewrite IH.
Qed.

Lemma symbol_app_inj v v' s s' :
  valid_cell v → valid_cell v' →
  symbol v +:+ s = symbol v' +:+ s' → v = v' ∧ s = s'.
Proof.
  intros [-> | [-> | ->]] [-> | [-> | ->]] Heq; vm_compute in Heq;
    by simplify_eq.
Qed.

Lemma join_symbols_inj row : ∀ row' s s',
  length row = length row' →
  Forall valid_cell row → Forall valid_cell row' →
  join " " (symbol <$> row) +:+ s = join " " (symbol <$> row') +:+ s' →
  row = row' ∧ s = s'.
Proof.
  induction row as [|v row IH]; intros [|v' row'] s s' Hlen Hv Hv' Heq;
    simplify_eq/=; [done|].
  apply Forall_cons in Hv as [Hv Hrow], Hv' as [Hv' Hrow'].
  destruct row as [|w row], row' as [|w' row']; simplify_eq/=.
  - by destruct (symbol_app_inj v v' s s' Hv Hv' Heq) as [-> ->].
  - rewrite !string_app_assoc in Heq.
    destruct (symbol_app_inj _ _ _ _ Hv Hv' Heq) as [-> Heq'].
    simplify_eq/=.
    destruct (IH (w' :: row') s s') as [Hrows ->]; simpl; try done.
    + by f_equal.
    + by rewrite Hrows.
Qed.

Lemma lines_inj b : ∀ b' s s',
  length b = length b' →
  Forall (Forall valid_cell) b → Forall (Forall valid_cell) b' →
  Forall (λ row : list Z, length row = 7%nat) b →
  Forall (λ row : list Z, length row = 7%nat) b' →
  join nl (line_text <$> b) +:+ s = join nl (line_text <$> b') +:+ s' →
  b = b' ∧ s = s'.
Proof.
  induction b as [|row b IH]; intros [|row' b'] s s' Hlen Hv Hv' Hl Hl' Heq;
    simplify_eq/=; [done|].
  apply Forall_cons in Hv as [Hv Hb], Hv' as [Hv' Hb'].
  apply Forall_cons in Hl as [Hl Hlb], Hl' as [Hl' Hlb'].
  destruct b as [|row2 b], b' as [|row2' b']; simplify_eq/=.
  - destruct (join_symbols_inj row row' s s') as [-> ->]; try done.
    congruence.
  - rewrite !string_app_assoc in Heq.
    destruct (join_symbols_inj row row' _ _ (eq_trans Hl (eq_sym Hl'))
                Hv Hv' Heq) as [-> Heq'].
    simplify_eq/=.
    destruct (IH (row2' :: b') s s') as [Hrows ->]; simpl; try done.
    + by f_equal.
    + by rewrite Hrows.
Qed.

Lemma board_rows_valid g :
  reachable g →
  Forall (Forall valid_cell) (board g)
  ∧ Forall (λ row : list Z, length row = 7%nat) (board g)
  ∧ length (board g) = 6%nat.
Proof.
  intros Hreach. destruct (inv_shaped _ (reachable_inv _ Hreach)) as [Hlen Hrows].
  split; [|by split].
  apply Forall_lookup. intros i row Hrow. apply Forall_lookup. intros j v Hv.
  apply (cell_values g (Z.of_nat i) (Z.of_nat j) v Hreach).
  rewrite cell_lookup, !Nat2Z.id, Hrow by lia. done.
Qed.

(** X16.  What the console prints for a board.  For a reachable game
    [render_board] raises nothing and returns the header line
    " 1 2 3 4 5 6 7" followed by one line per row of the board, top row
    first, joined by newlines; the line of a row is a space and then the
    symbols of its cells separated by spaces, R for player 0, Y for player 1
    and [EMPTY] for an empty cell. *)
Theorem render_board_prints_every_row g :
  reachable g →
  console.render_board g
  = Ok (join nl
          (" 1 2 3 4 5 6 7"
             :: ((λ row, " " +:+ join " " (symbol <$> row)) <$> board g))).
Proof. apply render_board_text. Qed.

Lemma render_board_prints_every_row_witness :
  console.render_board three_moves
  = Ok (join nl
          (" 1 2 3 4 5 6 7"
             :: ((λ row, " " +:+ join " " (symbol <$> row))
                   <$> board three_moves))).
Proof.
  apply (render_board_prints_every_row three_moves).
  apply state_after_reachable.
Defined.

(** X17.  The printed board tells the board: two reachable games whose
    [render_board] texts are equal have the same disc in every cell. *)
Theorem render_board_tells_the_board g1 g2 :
  reachable g1 → reachable g2 →
  console.render_board g1 = console.render_board g2 →
  board g1 = board g2.
Proof.
  intros H1 H2. rewrite !render_board_text by done. intros [= Heq].
  destruct (board_rows_valid g1 H1) as (Hv1 & Hl1 & Hn1).
  destruct (board_rows_valid g2 H2) as (Hv2 & Hl2 & Hn2).
  assert (∀ b : grid, length b = 6%nat →
            board_text b
            = " 1 2 3 4 5 6 7" +:+ nl +:+ join nl (line_text <$> b) +:+ "")
    as Htext.
  { intros [|row b] Hlen; [done|]. by rewrite string_app_nil_r. }
  rewrite !Htext in Heq by done.
  do 2 apply string_app_inv_head in Heq.
  apply lines_inj in Heq as [Hb _]; try done. congruence.
Qed.

Lemma render_board_tells_the_board_witness :
  board three_moves = board (state_after (drops [3; 3; 2; 7; -1])).
Proof.
  apply (render_board_tells_the_board three_moves).
  - apply state_after_reachable.
  - apply state_after_reachable.
  - vm_compute. reflexivity.
Defined.

(** ** The dialogue of the console *)

Section dialogue.

Variables (strip lower : string → string) (int : string → option Z).

Lemma prompt_column_spec game stdin : ∀ out,
  reachable game →
  ∃ answer rest out' skipped,
    console.prompt_column strip lower int game stdin out
    = Ok (answer, rest, out')
    ∧ Forall (refused strip lower int) skipped
    ∧ match answer with
      | console.Column c =>
          ∃ line, stdin = skipped ++ line :: rest
                  ∧ ¬ quit_word lower (strip line)
                  ∧ int (strip line) = Some (c + 1)
                  ∧ 0 ≤ c < console.COLS
      | console.Quit =>
          ∃ line, stdin = skipped ++ line :: rest
                  ∧ quit_word lower (strip line)
      | console.EndOfInput => stdin = skipped ∧ rest = []
      end.
Proof.
  induction stdin as [|line stdin IH]; intros out Hreach;
    cbn [console.prompt_column];
    pose proof (inv_current _ (reachable_inv _ Hreach)) as Hcur;
    (assert (∃ name sym,
               getitem console.PLAYER_NAMES (current game) = Ok name
               ∧ getitem console.PLAYER_SYMBOLS (current game) = Ok sym)
       as (name & sym & -> & ->)
       by (destruct Hcur as [-> | ->]; by eexists _, _));
    cbn [bind]; cbv zeta.
  - eexists console.EndOfInput, [], _, []. split; [done|]. by split.
  - case_bool_decide as Hquit.
    { eexists console.Quit, stdin, _, []. split; [done|]. split; [done|].
      by exists line. }
    destruct (int (strip line)) as [col1|] eqn:Hint.
    + destruct ((1 <=? col1) && (col1 <=? console.COLS)) eqn:Hrange;
        cbn [negb].
      * eexists (console.Column (col1 - 1)), stdin, _, [].
        split; [done|]. split; [done|]. exists line.
        split; [done|]. split; [done|].
        split; [by rewrite Hint, Z.sub_add|].
        unfold console.COLS in *. lia.
      * match goal with
        | |- context [console.prompt_column _ _ _ _ _ ?o] =>
            destruct (IH o Hreach)
              as (answer & rest & out' & skipped & -> & Hskipped & Hanswer)
        end.
        exists answer, rest, out', (line :: skipped). split; [done|].
        split.
        { constructor; [|done]. split; [done|].
          intros n Hn. rewrite Hint in Hn. simplify_eq.
          unfold console.COLS in *. lia. }
        destruct answer; [| |by destruct Hanswer as [-> ->]];
          destruct Hanswer as (line' & -> & Hrest); by exists line'.
    + match goal with
      | |- context [console.prompt_column _ _ _ _ _ ?o] =>
          destruct (IH o Hreach)
            as (answer & rest & out' & skipped & -> & Hskipped & Hanswer)
      end.
      exists answer, rest, out', (line :: skipped). split; [done|].
      split.
      { constructor; [|done]. split; [done|].
        intros n Hn. by rewrite Hint in Hn. }
      destruct answer; [| |by destruct Hanswer as [-> ->]];
        destruct Hanswer as (line' & -> & Hrest); by exists line'.
Qed.



End dialogue.

(** X18.  What [prompt_column] accepts.  With a reachable game it raises
    nothing but [EOFError]: it reads lines, skipping every line that is no
    quit word and no number from 1 to [COLS], and answers at the first line
    that is one: [None] for a quit word, [n - 1] for a number [n], which is
    a column of the board; at the end of the input it ends in [EOFError]. *)
Theorem prompt_column_answers strip lower int game stdin out :
  reachable game →
  ∃ answer rest out' skipped,
    console.prompt_column strip lower int game stdin out
    = Ok (answer, rest, out')
    ∧ Forall (refused strip lower int) skipped
    ∧ match answer with
      | console.Column c =>
          ∃ line, stdin = skipped ++ line :: rest
                  ∧ ¬ quit_word lower (strip line)
                  ∧ int (strip line) = Some (c + 1)
                  ∧ 0 ≤ c < console.COLS
      | console.Quit =>
          ∃ line, stdin = skipped ++ line :: rest
                  ∧ quit_word lower (strip line)
      | console.EndOfInput => stdin = skipped ∧ rest = []
      end.
Proof. apply prompt_column_spec. Qed.

Lemma prompt_column_answers_witness :
  ∃ answer rest out' skipped,
    console.prompt_column id id digit_int three_moves
      ["x"; "9"; "0"; "4"; "q"] []
    = Ok (answer, rest, out')
    ∧ Forall (refused id id digit_int) skipped
    ∧ match answer with
      | console.Column c =>
          ∃ line, ["x"; "9"; "0"; "4"; "q"] = skipped ++ line :: rest
                  ∧ ¬ quit_word id (id line)
                  ∧ digit_int (id line) = Some (c + 1)
                  ∧ 0 ≤ c < console.COLS
      | console.Quit =>
          ∃ line, ["x"; "9"; "0"; "4"; "q"] = skipped ++ line :: rest
                  ∧ quit_word id (id line)
      | console.EndOfInput => ["x"; "9"; "0"; "4"; "q"] = skipped ∧ rest = []
      end.
Proof.
  apply (prompt_column_answers id id digit_int three_moves).
  apply state_after_reachable.
Defined.

